(** * Zircon: metadata cache and chunkserver RPC adapters

    A shallow embedding of [zircon/metadatacache] (entry packing, allocation
    bitset, optimistic update loops over the lease agent) and of the [Read]
    adapters of [zircon/rpc], with the properties the specification states
    about them.

    Conventions.
    - Go's unsigned integers are [Z] with the wrap-around written out
      ([wrap64], [wrap32]); [uint] is taken to be 64 bits wide.
    - A byte is a [Z] in [0, 256) ([is_byte]); a [[]byte] is a [list byte],
      with capacity equal to length.
    - A Go [error] is modelled by its message ([err.Error()]); a possibly-nil
      error is an [option error], and multiple results are tuples, in the
      order the Go function returns them.
    - A function that can panic or loop returns an [outcome]. *)

From stdpp Require Import base numbers option list strings gmap.
From Stdlib Require Import ZArith Lia.

Local Open Scope Z_scope.

(** ** Go values *)

Abbreviation byte := Z (only parsing).
Abbreviation error := string (only parsing).
Abbreviation ChunkNum := Z (only parsing).
Abbreviation MetadataID := Z (only parsing).
Abbreviation Version := Z (only parsing).
Abbreviation ServerName := string (only parsing).

Definition is_byte (b : Z) : Prop := 0 <= b < 256.

Definition wrap64 (z : Z) : Z := z mod 2 ^ 64.
Definition wrap32 (z : Z) : Z := z mod 2 ^ 32.

(** [errors.New]: the error whose [Error()] is the given text. *)
Definition errors_New (msg : string) : error := msg.

(** How a call ends: it returns, it panics, or (for the unbounded [for]
    loops, which are run with a bound on their iterations) the bound is
    reached before the loop returns. *)
Inductive outcome (A : Type) : Type :=
| Ret (a : A)
| Panic (msg : string)
| OutOfFuel.
Arguments Ret {A} a.
Arguments Panic {A} msg.
Arguments OutOfFuel {A}.

#[global] Instance outcome_ret : MRet outcome := @Ret.
#[global] Instance outcome_bind : MBind outcome := fun A B k m =>
  match m with
  | Ret a => k a
  | Panic msg => Panic msg
  | OutOfFuel => OutOfFuel
  end.

(** [s[i]] on a byte slice: out of range is a run-time panic. *)
Definition index_byte (s : list byte) (i : Z) : outcome byte :=
  match s !! Z.to_nat i with
  | Some b => Ret b
  | None => Panic "index out of range"
  end.

(** [s[lo:hi]]: panics unless [lo <= hi <= cap(s)]. *)
Definition slice (s : list byte) (lo hi : Z) : outcome (list byte) :=
  if (lo <=? hi) && (hi <=? Z.of_nat (length s))
  then Ret (take (Z.to_nat (hi - lo)) (drop (Z.to_nat lo) s))
  else Panic "slice bounds out of range".

(** ** What the package imports

    [zircon/apis] (the entry type, its [Equals], the layout constants and the
    no-redirect sentinel) and [encoding/gob] are not part of the package; the
    development is parametric in them. *)
Class Imports := {
  MetadataEntry : Type;
  (** [apis.MetadataEntry{}] *)
  zeroEntry : MetadataEntry;
  Equals : MetadataEntry -> MetadataEntry -> bool;
  (** [apis.EntriesPerBlock], used as a shift count *)
  EntriesPerBlock : Z;
  EntrySize : Z;
  BitsetSize : Z;
  NoRedirect : ServerName;
  (** [gob.NewEncoder(buf).Encode(entry)]: the bytes appended to the empty
      buffer, and the error *)
  gob_Encode : MetadataEntry -> list byte * option error;
  (** [gob.NewDecoder(bytes.NewReader(data)).Decode(&entry)] on a zero
      [entry]: the entry afterwards, and the error *)
  gob_Decode : list byte -> MetadataEntry * option error;
}.

(** ** metadatacache: chunk numbers *)

Section ChunkNumbers.
Context `{Imports}.

(** Compute which metadata block the chunk belongs to *)
Definition chunkToBlockID (chunk : ChunkNum) : MetadataID :=
  Z.shiftr chunk EntriesPerBlock.

(** Compute the index within its metadata block where a chunk should be able
    to be found *)
Definition chunkToEntryNumber (chunk : ChunkNum) : Z :=
  Z.land chunk (Z.shiftl 1 EntriesPerBlock - 1).

(** Calculate the offset of the metadata entry inside of the block in bytes *)
Definition entryNumberToOffset (entryN : Z) : Z :=
  wrap32 (wrap32 (wrap32 entryN * EntrySize) + BitsetSize).

Definition chunkToBlockAndOffset (chunk : ChunkNum) : MetadataID * Z :=
  (chunkToBlockID chunk, entryNumberToOffset (chunkToEntryNumber chunk)).

Definition entryAndBlockToChunkNum (metachunk : MetadataID) (index : Z) : outcome ChunkNum :=
  if (metachunk =? 0) || (Z.shiftl 1 EntriesPerBlock <=? index)
  then Panic "broken invariant for chunk location"
  else Ret (Z.lor (wrap64 (Z.shiftl metachunk EntriesPerBlock)) index).

End ChunkNumbers.

(** ** metadatacache: the allocation bitset *)

(** Checks whether a chunk has been allocated or not in a bitset. *)
Definition getBitsetInData (bitset : list byte) (index : Z) : outcome bool :=
  cell ← index_byte bitset (index / 8);
  let mask := Z.shiftl 1 (index mod 8) in
  Ret (negb (Z.land cell mask =? 0)).

(** Provides write parameters to update a bitset: (offset, data) *)
Definition updateBitsetInData (bitset : list byte) (index : Z) (value : bool)
  : outcome (Z * list byte) :=
  cell ← index_byte bitset (index / 8);
  let mask := Z.shiftl 1 (index mod 8) in
  let cell' := if value then Z.lor cell mask else Z.land cell (Z.lxor mask 255) in
  Ret (wrap32 (index / 8), [cell']).

(** [for i := uint(0); i < 8; i++]: [n] iterations are left. *)
Fixpoint findFirstZero_loop (n : nat) (i : Z) (x : byte) : outcome Z :=
  match n with
  | O => Panic "had no zeroes!"
  | S n' =>
      if Z.land x 1 =? 0 then Ret i
      else findFirstZero_loop n' (i + 1) (Z.shiftr x 1)
  end.

Definition findFirstZero (x : byte) : outcome Z := findFirstZero_loop 8 0 x.

(** [for i, cell := range bitset], from position [i] on. *)
Fixpoint findAvailableCell_from (i : Z) (bitset : list byte) : outcome (Z * bool) :=
  match bitset with
  | [] => Ret (0, false)
  | cell :: rest =>
      if negb (cell =? 255)
      then r ← findFirstZero cell; Ret (i * 8 + r, true)
      else findAvailableCell_from (i + 1) rest
  end.

(** Finds a cell in a bitset that has a chunkNum available and returns the
    index of the available cell *)
Definition findAvailableCell (bitset : list byte) : outcome (Z * bool) :=
  findAvailableCell_from 0 bitset.

(** ** metadatacache: entry slots *)

Section Entries.
Context `{Imports}.

Definition len (s : list byte) : Z := Z.of_nat (length s).

(** [for buf.Len() < apis.EntrySize { buf.WriteByte(0) }], with as many
    iterations left as bytes are missing. *)
Fixpoint pad_loop (n : nat) (buf : list byte) : list byte :=
  match n with
  | O => buf
  | S n' => pad_loop n' (buf ++ [0])
  end.

(** Serialize a metadata entry using gob *)
Definition serializeEntry (entry : MetadataEntry) : list byte * option error :=
  let '(buf, err) := gob_Encode entry in
  match err with
  | Some e => ([], Some e)
  | None =>
      let result := pad_loop (Z.to_nat (EntrySize - len buf)) buf in
      if negb (len result =? EntrySize)
      then ([], Some (errors_New "entry missized"))
      else (result, None)
  end.

(** Deserialize a metadata entry using gob *)
Definition deserializeEntry (data : list byte) : MetadataEntry * option error :=
  gob_Decode data.

End Entries.

(** ** The lease agent, as the metadata cache sees it

    [zircon/metadatacache/leasing] is used through four calls. An agent is
    any state type [L] with these four transitions: they may answer anything,
    so that losing a lease, a concurrent writer or a failing store are all
    agents. *)
Class Leasing (L : Type) := {
  leasing_Read : MetadataID -> L -> (list byte * Version * ServerName * option error) * L;
  leasing_Write : MetadataID -> Version -> Z -> list byte -> L
                  -> (Version * ServerName * option error) * L;
  leasing_ListLeases : L -> (list MetadataID * option error) * L;
  leasing_GetAnyUnleased : L -> (MetadataID * option error) * L;
}.

(** Code that calls the agent: a state transformer that may panic. *)
Definition M (L A : Type) : Type := L -> outcome A * L.

#[global] Instance M_ret {L} : MRet (M L) := fun A a st => (Ret a, st).
#[global] Instance M_bind {L} : MBind (M L) := fun A B k m st =>
  match m st with
  | (Ret a, st') => k a st'
  | (Panic msg, st') => (Panic msg, st')
  | (OutOfFuel, st') => (OutOfFuel, st')
  end.

Definition call {L A} (f : L -> A * L) : M L A :=
  fun st => let '(a, st') := f st in (Ret a, st').

Definition lift {L A} (o : outcome A) : M L A := fun st => (o, st).

(** [for { body }]: the body says [Some r] for [return r] and [None] when it
    reaches its end and goes around again. *)
Fixpoint for_loop {L A} (fuel : nat) (body : M L (option A)) : M L A :=
  match fuel with
  | O => lift OutOfFuel
  | S fuel' =>
      r ← body;
      match r with
      | Some a => mret a
      | None => for_loop fuel' body
      end
  end.

(** ** metadatacache: the operations *)

Section Cache.
Context `{Imports} {L : Type} `{!Leasing L}.

(** Reads the metadata entry of a particular chunk. *)
Definition ReadEntry (chunk : ChunkNum) : M L (MetadataEntry * ServerName * option error) :=
  let '(metachunk, offset) := chunkToBlockAndOffset chunk in
  '(data, _, owner, err) ← call (leasing_Read metachunk);
  match err with
  | Some e => mret (zeroEntry, owner, Some e)
  | None =>
  found ← lift (getBitsetInData data (chunkToEntryNumber chunk));
  if negb found
  then mret (zeroEntry, NoRedirect,
             Some (errors_New "entry doesn't exist to be able to be read"))
  else
  slot ← lift (slice data offset (wrap32 (offset + EntrySize)));
  let '(entry, err) := deserializeEntry slot in
  match err with
  | Some e => mret (zeroEntry, NoRedirect, Some e)
  | None => mret (entry, NoRedirect, None)
  end
  end.

(** One turn of the loop of [UpdateEntry]. The short declaration
    [entry, err := deserializeEntry(...)] stands in the loop's block, where
    [err] exists and [entry] does not: it declares a new [entry], and the
    parameter of that name is out of sight until the block ends. *)
Definition UpdateEntry_body (chunk : ChunkNum) (previous entry : MetadataEntry)
  : M L (option (ServerName * option error)) :=
  let '(metachunk, offset) := chunkToBlockAndOffset chunk in
  '(data, version, owner, err) ← call (leasing_Read metachunk);
  match err with
  | Some e => mret (Some (owner, Some e))
  | None =>
  found ← lift (getBitsetInData data (chunkToEntryNumber chunk));
  if negb found
  then mret (Some (NoRedirect,
                   Some (errors_New "entry doesn't exist to be able to be updated")))
  else
  slot ← lift (slice data offset (wrap32 (offset + EntrySize)));
  let '(entry, err) := deserializeEntry slot in
  match err with
  | Some e => mret (Some (NoRedirect, Some e))
  | None =>
  if negb (Equals entry previous)
  then mret (Some (NoRedirect,
                   Some (errors_New "entry does not match previous expected entry")))
  else
  let '(updated, err) := serializeEntry entry in
  match err with
  | Some e => mret (Some (NoRedirect, Some e))
  | None =>
  if negb (len updated =? EntrySize)
  then lift (Panic "postcondition on serializeEntry failed")
  else
  '(_, owner, err) ← call (leasing_Write metachunk version offset updated);
  match err with
  | None => mret (Some (NoRedirect, None))
  | Some e =>
      if version =? 0 then mret (Some (owner, Some e))
      else mret None
  end
  end
  end
  end.

(** Update the metadate entry of a particular chunk. *)
Definition UpdateEntry (fuel : nat) (chunk : ChunkNum) (previous entry : MetadataEntry)
  : M L (ServerName * option error) :=
  for_loop fuel (UpdateEntry_body chunk previous entry).

(** One turn of the loop of [DeleteEntry]. *)
Definition DeleteEntry_body (chunk : ChunkNum) (previous : MetadataEntry)
  : M L (option (ServerName * option error)) :=
  let '(metachunk, offset) := chunkToBlockAndOffset chunk in
  '(data, version, owner, err) ← call (leasing_Read metachunk);
  match err with
  | Some e => mret (Some (owner, Some e))
  | None =>
  found ← lift (getBitsetInData data (chunkToEntryNumber chunk));
  if negb found
  then mret (Some (NoRedirect,
                   Some (errors_New "entry doesn't exist to be able to be deleted")))
  else
  slot ← lift (slice data offset (wrap32 (offset + EntrySize)));
  let '(entry, err) := deserializeEntry slot in
  match err with
  | Some e => mret (Some (NoRedirect, Some e))
  | None =>
  if negb (Equals entry previous)
  then mret (Some (NoRedirect,
                   Some (errors_New "entry does not match previous expected entry")))
  else
  '(updateOffset, newData) ← lift (updateBitsetInData data (chunkToEntryNumber chunk) false);
  '(_, owner, err) ← call (leasing_Write metachunk version updateOffset newData);
  match err with
  | None => mret (Some (NoRedirect, None))
  | Some e =>
      if version =? 0 then mret (Some (owner, Some e))
      else mret None
  end
  end
  end.

(** Delete a metadata entry and allow the garbage collection of the
    underlying chunks *)
Definition DeleteEntry (fuel : nat) (chunk : ChunkNum) (previous : MetadataEntry)
  : M L (ServerName * option error) :=
  for_loop fuel (DeleteEntry_body chunk previous).

(** Checks whether a chunk has been allocated or not in the bitset part of a
    certain metachunk. *)
Definition getBitset (metachunk : MetadataID) (index : Z) : M L (bool * option error) :=
  '(data, _, _, err) ← call (leasing_Read metachunk);
  match err with
  | Some e => mret (false, Some e)
  | None =>
      bitset ← lift (slice data 0 BitsetSize);
      found ← lift (getBitsetInData bitset index);
      mret (found, None)
  end.

(** Update whether a chunk has been allocated or not in the bitset part of a
    certain metachunk. Returns 'true' if the request succeeded, false if it
    was clobbered, and error if anything else happened. *)
Definition updateBitset (metachunk : MetadataID) (index : Z) (value : bool)
  : M L (bool * option error) :=
  '(data, version, _, err) ← call (leasing_Read metachunk);
  match err with
  | Some e => mret (false, Some e)
  | None =>
  bitset ← lift (slice data 0 BitsetSize);
  bitset' ← lift (slice data 0 BitsetSize);
  existingValue ← lift (getBitsetInData bitset' index);
  if Bool.eqb existingValue value
  then mret (false, None)
  else
  '(offset, newData) ← lift (updateBitsetInData bitset index value);
  '(_, _, err) ← call (leasing_Write metachunk version offset newData);
  match err with
  | Some e => mret (false, Some e)
  | None => mret (true, None)
  end
  end.

(** Tries to find a free chunk in a specific chunk. Returns (index, found,
    error) *)
Definition findFreeChunkIn (metachunk : MetadataID) : M L (Z * bool * option error) :=
  '(data, _, _, err) ← call (leasing_Read metachunk);
  match err with
  | Some e => mret (0, false, Some e)
  | None =>
  bitset ← lift (slice data 0 BitsetSize);
  '(cellIndex, found) ← lift (findAvailableCell bitset);
  if (found : bool) then mret (cellIndex, true, None)
  else mret (0, false, None)
  end.

(** [for _, metachunk := range leases] *)
Fixpoint findAnyLeasedFreeChunk_range (leases : list MetadataID)
  : M L (MetadataID * Z * bool * option error) :=
  match leases with
  | [] => mret (0, 0, false, None)
  | metachunk :: rest =>
      '(index, found, err) ← findFreeChunkIn metachunk;
      match err with
      | Some e => mret (0, 0, false, Some e)
      | None =>
          if (found : bool) then mret (metachunk, index, true, None)
          else findAnyLeasedFreeChunk_range rest
      end
  end.

(** Tries to find a free chunk in one of our leased chunks. Returns
    (metadataID, index, found, error) *)
Definition findAnyLeasedFreeChunk : M L (MetadataID * Z * bool * option error) :=
  '(leases, err) ← call leasing_ListLeases;
  match err with
  | Some e => mret (0, 0, false, Some e)
  | None => findAnyLeasedFreeChunk_range leases
  end.

(** One turn of the second loop of [findAnyFreeChunk]. *)
Definition findAnyFreeChunk_body : M L (option (MetadataID * Z * option error)) :=
  '(metadataID, err) ← call leasing_GetAnyUnleased;
  match err with
  | Some e => mret (Some (0, 0, Some e))
  | None =>
  '(index, found, err) ← findFreeChunkIn metadataID;
  match err with
  | Some e => mret (Some (0, 0, Some e))
  | None =>
      if (found : bool) then mret (Some (metadataID, index, None))
      else mret None
  end
  end.

(** Tries to find a free chunk anywhere. Returns (metadataID, index, error) *)
Definition findAnyFreeChunk (fuel : nat) : M L (MetadataID * Z * option error) :=
  '(metadataID, index, found, err) ← findAnyLeasedFreeChunk;
  match err with
  | Some e => mret (0, 0, Some e)
  | None =>
      if (found : bool) then mret (metadataID, index, None)
      else for_loop fuel findAnyFreeChunk_body
  end.

(** One turn of the loop of [NewEntry]; [search] bounds the loop of
    [findAnyFreeChunk]. *)
Definition NewEntry_body (search : nat) : M L (option (ChunkNum * option error)) :=
  '(metachunk, index, err) ← findAnyFreeChunk search;
  match err with
  | Some e => mret (Some (0, Some e))
  | None =>
  '(noclobber, err) ← updateBitset metachunk index true;
  match err with
  | Some e => mret (Some (0, Some e))
  | None =>
      if (noclobber : bool)
      then c ← lift (entryAndBlockToChunkNum metachunk index); mret (Some (c, None))
      else mret None
  end
  end.

(** Allocate a new metadata entry and corresponding chunk number *)
Definition NewEntry (fuel search : nat) : M L (ChunkNum * option error) :=
  for_loop fuel (NewEntry_body search).

End Cache.

(** ** rpc: the chunkserver adapters for Read

    [apis.ChunkNum] and [apis.Version] are 64-bit and [apis.Offset] and
    [apis.Length] 32-bit unsigned integers, as the wire fields are: the
    conversions between them change no value. *)

(** [twirp.Chunkserver_Read] *)
Record Chunkserver_Read := {
  read_Chunk : Z;
  read_Offset : Z;
  read_Length : Z;
  read_Version : Z;
}.

(** [twirp.Chunkserver_Read_Result] *)
Record Chunkserver_Read_Result := {
  result_Data : list byte;
  result_Version : Z;
  result_Error : string;
}.

(** [apis.Chunkserver], as far as [Read] goes: a server with state [S]. *)
Class Chunkserver (S : Type) := {
  chunkserver_Read : ChunkNum -> Z -> Z -> Version -> S
                     -> (list byte * Version * option error) * S;
}.

(** [twirp.Chunkserver], as far as [Read] goes. The result is a pointer:
    [None] is nil. *)
Class TwirpChunkserver (T : Type) := {
  twirp_Read : Chunkserver_Read -> T
               -> (option Chunkserver_Read_Result * option error) * T;
}.

(** [Read] of [proxyChunkserverAsTwirp] *)
Definition proxyChunkserverAsTwirp_Read {S} `{!Chunkserver S} (input : Chunkserver_Read)
  : M S (option Chunkserver_Read_Result * option error) :=
  '(data, version, err) ← call (chunkserver_Read (read_Chunk input) (read_Offset input)
                                  (read_Length input) (read_Version input));
  message ← match err with
            | None => mret ""
            | Some e =>
                let message : string := e in
                if String.eqb message "" then lift (Panic "expected nonempty error code")
                else mret message
            end;
  mret (Some {| result_Data := data; result_Version := version; result_Error := message |},
        None).

(** [Read] of [proxyTwirpAsChunkserver] *)
Definition proxyTwirpAsChunkserver_Read {T} `{!TwirpChunkserver T}
    (chunk : ChunkNum) (offset length : Z) (minimum : Version)
  : M T (list byte * Version * option error) :=
  '(result, err) ← call (twirp_Read {| read_Chunk := chunk; read_Offset := offset;
                                        read_Length := length; read_Version := minimum |});
  match err with
  | Some e => mret ([], 0, Some e)
  | None =>
      match result with
      | None => lift (Panic "nil pointer dereference")
      | Some result =>
          if negb (String.eqb (result_Error result) "")
          then mret ([], result_Version result, Some (errors_New (result_Error result)))
          else mret (result_Data result, result_Version result, None)
      end
  end.

(** ** rpc: the adapters that carry a list *)

(** [dst[i] = f(v)] for [i, v := range src], from position [i] on: an
    assignment outside [dst] is a run-time panic. *)
Fixpoint range_assign {A B} (f : A -> outcome B) (i : nat) (src : list A) (dst : list B)
  : outcome (list B) :=
  match src with
  | [] => Ret dst
  | v :: rest =>
      b ← f v;
      if decide (i < length dst)%nat
      then range_assign f (S i) rest (<[i := b]> dst)
      else Panic "index out of range"
  end.

(** [twirp.Chunkserver_StartWriteReplicated] *)
Record Chunkserver_StartWriteReplicated := {
  swr_Chunk : Z;
  swr_Offset : Z;
  swr_Data : list byte;
  swr_Address : list string;
}.

(** [twirp.ChunkVersion] *)
Record ChunkVersion := {
  cv_Chunk : Z;
  cv_Version : Z;
}.

(** [twirp.Chunkserver_ListAllChunks_Result]: a list of pointers, [None]
    for nil. *)
Record Chunkserver_ListAllChunks_Result := {
  list_Chunks : list (option ChunkVersion);
}.

(** [apis.Chunkserver], as far as [StartWriteReplicated] and
    [ListAllChunks] go. [apis.ServerAddress] is a string type. *)
Class ChunkserverLists (S : Type) := {
  chunkserver_StartWriteReplicated :
    ChunkNum -> Z -> list byte -> list string -> S -> option error * S;
  chunkserver_ListAllChunks : S -> (list (ChunkNum * Version) * option error) * S;
}.

(** [twirp.Chunkserver], as far as the same two calls go. The results are
    pointers, and a call through the interface may panic, as the in-process
    implementation below can. *)
Class TwirpChunkserverLists (T : Type) := {
  twirp_StartWriteReplicated :
    Chunkserver_StartWriteReplicated -> M T (option unit * option error);
  twirp_ListAllChunks : M T (option Chunkserver_ListAllChunks_Result * option error);
}.

(** [StartWriteReplicated] of [proxyChunkserverAsTwirp] *)
Definition proxyChunkserverAsTwirp_StartWriteReplicated {S} `{!ChunkserverLists S}
    (input : Chunkserver_StartWriteReplicated) : M S (option unit * option error) :=
  addresses ← lift (range_assign (fun v : string => Ret v) 0 (swr_Address input)
                      (replicate (length (swr_Address input)) ""));
  err ← call (chunkserver_StartWriteReplicated (swr_Chunk input) (swr_Offset input)
                (swr_Data input) addresses);
  mret (Some tt, err).

(** [ListAllChunks] of [proxyChunkserverAsTwirp] *)
Definition proxyChunkserverAsTwirp_ListAllChunks {S} `{!ChunkserverLists S}
  : M S (option Chunkserver_ListAllChunks_Result * option error) :=
  '(chunks, err) ← call chunkserver_ListAllChunks;
  chunkVersions ← lift (range_assign
                          (fun chunk : ChunkNum * Version =>
                             Ret (Some {| cv_Chunk := chunk.1; cv_Version := chunk.2 |}))
                          0 chunks (replicate (length chunks) None));
  mret (Some {| list_Chunks := chunkVersions |}, err).

(** [StartWriteReplicated] of [proxyTwirpAsChunkserver] *)
Definition proxyTwirpAsChunkserver_StartWriteReplicated {T} `{!TwirpChunkserverLists T}
    (chunk : ChunkNum) (offset : Z) (data : list byte) (replicas : list string)
  : M T (option error) :=
  addresses ← lift (range_assign (fun v : string => Ret v) 0 replicas
                      (replicate (length replicas) ""));
  '(_, err) ← twirp_StartWriteReplicated
                {| swr_Chunk := chunk; swr_Offset := offset; swr_Data := data;
                   swr_Address := addresses |};
  mret err.

(** [ListAllChunks] of [proxyTwirpAsChunkserver]. The result is used before
    the error is looked at. *)
Definition proxyTwirpAsChunkserver_ListAllChunks {T} `{!TwirpChunkserverLists T}
  : M T (list (ChunkNum * Version) * option error) :=
  '(result, err) ← twirp_ListAllChunks;
  match result with
  | None => lift (Panic "nil pointer dereference")
  | Some result =>
      decoded ← lift (range_assign
                        (fun v : option ChunkVersion =>
                           match v with
                           | None => Panic "nil pointer dereference"
                           | Some v => Ret (cv_Chunk v, cv_Version v)
                           end)
                        0 (list_Chunks result)
                        (replicate (length (list_Chunks result)) (0, 0)));
      mret (decoded, err)
  end.

(** The server-side adapter, used in process as the [twirp.Chunkserver] of
    the client-side adapter. *)
Definition in_process {S} `{!ChunkserverLists S} : TwirpChunkserverLists S :=
  {| twirp_StartWriteReplicated := proxyChunkserverAsTwirp_StartWriteReplicated;
     twirp_ListAllChunks := proxyChunkserverAsTwirp_ListAllChunks |}.

(** ** rpc: the teardown handle of PublishChunkserver *)

(** What [teardown] acts on: the HTTP server, the listener, and the channel
    [termErr] on which the serve loop reports how it ended. The receive is
    taken to return: it hands over what the serve loop sent. *)
Class Serving (E : Type) := {
  httpServer_Shutdown : E -> option error * E;
  listener_Close : E -> option error * E;
  termErr_receive : E -> option error * E;
}.

(** [fmt.Errorf("multiple errors: { %v } and { %v }", err1, err2)] *)
Definition multiple_errors (err1 err2 : error) : error :=
  ("multiple errors: { " ++ err1 ++ " } and { " ++ err2 ++ " }")%string.

(** [teardown], the function [PublishChunkserver] returns. *)
Definition teardown {E} `{!Serving E} (kill : bool) : M E (option error) :=
  err1 ← (if kill
          then err1 ← call httpServer_Shutdown;
               match err1 with
               | None => call listener_Close
               | Some e => mret (Some e)
               end
          else mret None);
  err2 ← call termErr_receive;
  match err1, err2 with
  | None, _ => mret err2
  | Some e1, None => mret (Some e1)
  | Some e1, Some e2 => mret (Some (multiple_errors e1 e2))
  end.

(** One step of [teardown], with its result. *)
Inductive ServingCall : Type :=
| DidShutdown (r : option error)
| DidClose (r : option error)
| DidReceive (r : option error).

Definition serving_result (c : ServingCall) : option error :=
  match c with DidShutdown r | DidClose r | DidReceive r => r end.

(** Any server, with a log of the steps taken, oldest first. *)
Definition logged_serving {E} (env : Serving E) : Serving (E * list ServingCall) :=
  {| httpServer_Shutdown := fun '(st, log) =>
       let '(r, st') := httpServer_Shutdown st in (r, (st', log ++ [DidShutdown r]));
     listener_Close := fun '(st, log) =>
       let '(r, st') := listener_Close st in (r, (st', log ++ [DidClose r]));
     termErr_receive := fun '(st, log) =>
       let '(r, st') := termErr_receive st in (r, (st', log ++ [DidReceive r])) |}.

(** ** Agents to run the cache against *)

(** One call to the lease agent, with its answer. *)
Inductive Call : Type :=
| CallRead (metachunk : MetadataID)
    (reply : list byte * Version * ServerName * option error)
| CallWrite (metachunk : MetadataID) (version : Version) (offset : Z) (data : list byte)
    (reply : Version * ServerName * option error)
| CallListLeases (reply : list MetadataID * option error)
| CallGetAnyUnleased (reply : MetadataID * option error).

(** Any agent, with a log of the calls made to it, oldest first. *)
Definition traced {L} (agent : Leasing L) : Leasing (L * list Call) :=
  {| leasing_Read := fun m '(st, log) =>
       let '(r, st') := leasing_Read m st in (r, (st', log ++ [CallRead m r]));
     leasing_Write := fun m v off data '(st, log) =>
       let '(r, st') := leasing_Write m v off data st in
       (r, (st', log ++ [CallWrite m v off data r]));
     leasing_ListLeases := fun '(st, log) =>
       let '(r, st') := leasing_ListLeases st in (r, (st', log ++ [CallListLeases r]));
     leasing_GetAnyUnleased := fun '(st, log) =>
       let '(r, st') := leasing_GetAnyUnleased st in
       (r, (st', log ++ [CallGetAnyUnleased r])) |}.

(** The writes of a log that the agent accepted. *)
Definition is_accepted_write (c : Call) : bool :=
  match c with CallWrite _ _ _ _ (_, _, None) => true | _ => false end.

(** An answer prepared in advance. *)
Inductive Reply : Type :=
| ReadReply (r : list byte * Version * ServerName * option error)
| WriteReply (r : Version * ServerName * option error)
| ListLeasesReply (r : list MetadataID * option error)
| GetAnyUnleasedReply (r : MetadataID * option error).

(** An agent that answers from a script, one reply per call; a call the
    script does not expect fails. *)
Definition scripted : Leasing (list Reply) :=
  {| leasing_Read := fun _ st =>
       match st with
       | ReadReply r :: st' => (r, st')
       | _ => (([], 0, "", Some "unexpected Read"), st)
       end;
     leasing_Write := fun _ _ _ _ st =>
       match st with
       | WriteReply r :: st' => (r, st')
       | _ => ((0, "", Some "unexpected Write"), st)
       end;
     leasing_ListLeases := fun st =>
       match st with
       | ListLeasesReply r :: st' => (r, st')
       | _ => (([], Some "unexpected ListLeases"), st)
       end;
     leasing_GetAnyUnleased := fun st =>
       match st with
       | GetAnyUnleasedReply r :: st' => (r, st')
       | _ => ((0, Some "unexpected GetAnyUnleased"), st)
       end |}.

(** Modelled from the spec: the effect of the lease agent's sub-range write
    on the bytes of a block ([leasing.Write] is not among the sources):
    [data] takes the place of the bytes from [offset] on, the rest stays. *)
Definition write_range (block : list byte) (offset : Z) (data : list byte) : list byte :=
  list_inserts (Z.to_nat offset) data block.

(** The state of [store_agent]: the blocks it holds, each with its block
    version, and the name of the server that holds every other block. *)
Record Store := {
  store_blocks : gmap Z (list byte * Version);
  store_other : ServerName;
}.

(** Modelled from the spec: the lease agent of section 4.3
    ([zircon/metadatacache/leasing] is not among the sources), for an agent
    that holds the lease of every block it stores and is alone: Read returns
    the block and its version; Write is refused with a version mismatch
    unless the expected version is the block's, and otherwise commits the
    modified block with the version incremented. A block it does not store
    is held by [store_other]: the call fails and names that server. *)
Definition store_agent `{Imports} : Leasing Store :=
  {| leasing_Read := fun m st =>
       match store_blocks st !! m with
       | Some (data, v) => ((data, v, NoRedirect, None), st)
       | None => (([], 0, store_other st, Some "not owner"), st)
       end;
     leasing_Write := fun m v off data st =>
       match store_blocks st !! m with
       | Some (block, v') =>
           if v =? v'
           then ((v' + 1, NoRedirect, None),
                 {| store_blocks := <[m := (write_range block off data, v' + 1)]> (store_blocks st);
                    store_other := store_other st |})
           else ((0, NoRedirect, Some "version mismatch"), st)
       | None => ((0, store_other st, Some "not owner"), st)
       end;
     leasing_ListLeases := fun st => ((map fst (map_to_list (store_blocks st)), None), st);
     leasing_GetAnyUnleased := fun st => ((0, Some "no unleased block"), st) |}.

(** ** A small instance of the imports *)

(** Modelled from the spec: [apis.MetadataEntry] (not among the sources), a
    record of the most recently known committed version and the replica
    set. *)
Record Entry := {
  MostRecentVersion : Z;
  Replicas : list Z;
}.

#[global] Instance Entry_eq_dec : EqDecision Entry.
Proof. solve_decision. Defined.

(** A codec to stand in for gob on [Entry]: a record is encoded as its
    length, its version and its replicas, one byte each; decoding reads one
    record off the front of its input. *)
Definition small_Encode (e : Entry) : list byte * option error :=
  if bool_decide (is_byte (MostRecentVersion e))
     && forallb (fun r => bool_decide (is_byte r)) (Replicas e)
     && (Z.of_nat (length (Replicas e)) <? 255)
  then (1 + Z.of_nat (length (Replicas e)) :: MostRecentVersion e :: Replicas e, None)
  else ([], Some "gob: value out of range")%string.

Definition small_Decode (data : list byte) : Entry * option error :=
  match data with
  | n :: v :: rest =>
      if (1 <=? n) && (n - 1 <=? Z.of_nat (length rest))
      then ({| MostRecentVersion := v; Replicas := take (Z.to_nat (n - 1)) rest |}, None)
      else ({| MostRecentVersion := 0; Replicas := [] |}, Some "unexpected EOF")
  | _ => ({| MostRecentVersion := 0; Replicas := [] |}, Some "EOF")
  end.

(** The instance: 8 entries of 8 bytes behind a bitset of one byte, the
    empty name for no redirect. *)
Definition small : Imports :=
  {| MetadataEntry := Entry;
     zeroEntry := {| MostRecentVersion := 0; Replicas := [] |};
     Equals := fun a b => bool_decide (a = b);
     EntriesPerBlock := 3;
     EntrySize := 8;
     BitsetSize := 1;
     NoRedirect := "";
     gob_Encode := small_Encode;
     gob_Decode := small_Decode |}.

(** ** Fixtures on the small instance *)

(** A block of the small layout: the bitset cell, then eight empty slots. *)
Definition small_block (bits : byte) : list byte := bits :: replicate 64 0.

(** A block of the small layout whose first slot holds the given bytes. *)
Definition small_block_with (bits : byte) (slot0 : list byte) : list byte :=
  bits :: slot0 ++ replicate 56 0.

Definition entry_v1 : Entry := {| MostRecentVersion := 1; Replicas := [7; 9] |}.
Definition entry_v2 : Entry := {| MostRecentVersion := 2; Replicas := [7; 9] |}.

(** Chunk 8 is entry 0 of block 1; its slot holds [entry_v1]. *)
Definition block_v1 : list byte := small_block_with 1 [3; 1; 7; 9; 0; 0; 0; 0].

(** The store that holds block 1 at version 4, with [entry_v1] in the slot
    of chunk 8. *)
Definition store_v1 : Store :=
  {| store_blocks := {[ 1 := (block_v1, 4) ]}; store_other := "B" |}.

(** A chunkserver that is stale: it fails every Read, reporting version 3. *)
Definition stale_server : Chunkserver unit :=
  {| chunkserver_Read := fun _ _ _ _ st => (([], 3, Some "stale replica"), st) |}.

(** A wire client that delivers a prepared response. *)
Definition canned_client : TwirpChunkserver (option Chunkserver_Read_Result) :=
  {| twirp_Read := fun _ st => ((st, None), st) |}.

(** An agent that holds block 1 and never changes it: every Read returns
    [block_v1] at version 4, every Write is accepted. *)
Definition steady : Leasing unit :=
  {| leasing_Read := fun _ st => ((block_v1, 4, "", None), st);
     leasing_Write := fun _ _ _ _ st => ((5, "", None), st);
     leasing_ListLeases := fun st => (([1], None), st);
     leasing_GetAnyUnleased := fun st => ((2, None), st) |}.

(** A wire client that delivers a prepared answer to [ListAllChunks]. *)
Definition canned_list_client
  : TwirpChunkserverLists (option Chunkserver_ListAllChunks_Result * option error) :=
  {| twirp_StartWriteReplicated := fun _ st => (Ret (Some tt, None), st);
     twirp_ListAllChunks := fun st => (Ret st, st) |}.

(** ** Vocabulary of the properties *)

Section Vocabulary.
Context `{Imports} {L : Type} `{!Leasing L}.

(** What is asked of gob: [Decode] reads the value [Encode] wrote off the
    front of its input, whatever follows it. *)
Definition gob_reads_what_it_wrote : Prop :=
  forall (e : MetadataEntry) (encoded rest : list byte),
    gob_Encode e = (encoded, None) -> gob_Decode (encoded ++ rest) = (e, None).

(** A turn of either loop up to its write: the block is read, the bit is
    set, the slot decodes to an entry that equals [previous]. *)
Definition turn_reaches_write (chunk : ChunkNum) (previous : MetadataEntry) (st st1 : L)
    (data : list byte) (version : Version) (stored : MetadataEntry) : Prop :=
  let offset := entryNumberToOffset (chunkToEntryNumber chunk) in
  exists (owner : ServerName) (slot : list byte),
    leasing_Read (chunkToBlockID chunk) st = ((data, version, owner, None), st1)
    /\ getBitsetInData data (chunkToEntryNumber chunk) = Ret true
    /\ slice data offset (wrap32 (offset + EntrySize)) = Ret slot
    /\ deserializeEntry slot = (stored, None)
    /\ Equals stored previous = true.

(** The layout the block format asks for: the bitset has a bit for every
    entry, and a block is shorter than [2^32] bytes, so that no offset
    wraps. *)
Definition layout_fits : Prop :=
  0 <= EntriesPerBlock
  /\ 0 < EntrySize
  /\ 2 ^ EntriesPerBlock <= 8 * BitsetSize
  /\ BitsetSize + 2 ^ EntriesPerBlock * EntrySize < 2 ^ 32.

(** The cell [DeleteEntry] writes for a cell it has read. *)
Definition cleared (cell index : Z) : Z :=
  Z.land cell (Z.lxor (Z.shiftl 1 (index mod 8)) 255).

(** A write of [DeleteEntry]: one byte, at the cell of the chunk's bit, in
    the chunk's block. *)
Definition writes_one_cell (chunk : ChunkNum) (c : Call) : Prop :=
  match c with
  | CallWrite m _ offset data _ =>
      m = chunkToBlockID chunk
      /\ offset = wrap32 (chunkToEntryNumber chunk / 8)
      /\ length data = 1%nat
  | _ => True
  end.

(** A turn of [DeleteEntry] that got as far as its write: what it read and
    what it asked the agent to write. *)
Definition delete_turn (chunk : ChunkNum) (data : list byte) (version : Version)
    (owner : ServerName) (cell : byte) (reply : Version * ServerName * option error)
  : list Call :=
  [CallRead (chunkToBlockID chunk) (data, version, owner, None);
   CallWrite (chunkToBlockID chunk) version (wrap32 (chunkToEntryNumber chunk / 8))
     [cleared cell (chunkToEntryNumber chunk)] reply].

End Vocabulary.

(** ** Vocabulary of the further properties *)

(** Whether a call is a Write. *)
Definition is_a_write (c : Call) : bool :=
  match c with CallWrite _ _ _ _ _ => true | _ => false end.

(** A computation over a logged agent that, however it ends, only adds
    calls that satisfy [P] to the log. *)
Definition appends_only {L A} (P : Call -> Prop) (f : M (L * list Call) A) : Prop :=
  forall (st st' : L) (log log' : list Call) (r : outcome A),
    f (st, log) = (r, (st', log')) ->
    exists new, log' = log ++ new /\ Forall P new.

(** A computation that never calls Write. *)
Definition appends_no_write {L A} (f : M (L * list Call) A) : Prop :=
  appends_only (fun c => is_a_write c = false) f.

Section MoreVocabulary.
Context `{Imports} {L : Type} `{!Leasing L}.

(** The agent hands out whole blocks: every block a Read returns without
    error has the bitset and all the slots. *)
Definition returns_whole_blocks : Prop :=
  forall (m : MetadataID) (st st' : L) (data : list byte) (version : Version)
         (owner : ServerName),
    leasing_Read m st = ((data, version, owner, None), st') ->
    len data = BitsetSize + 2 ^ EntriesPerBlock * EntrySize.

(** The call ended in a panic. *)
Definition panics {A} (r : outcome A * L) : Prop := exists msg, r.1 = Panic msg.

(** What a run of [NewEntry] that returns has logged and returned. *)
Definition new_entry_run (log log' : list Call) (r : ChunkNum * option error) : Prop :=
  exists before : list Call,
    Forall (fun c => is_a_write c = false) before
    /\ ((exists e tail,
           r = (0, Some e)
           /\ log' = log ++ before ++ tail
           /\ Forall (fun c => is_accepted_write c = false) tail)
        \/ (exists m index data version owner bitset cell v' o',
              r = (Z.lor (wrap64 (Z.shiftl m EntriesPerBlock)) index, None)
              /\ log' = log ++ before
                        ++ [CallRead m (data, version, owner, None);
                            CallWrite m version (wrap32 (index / 8))
                              [Z.lor cell (Z.shiftl 1 (index mod 8))] (v', o', None)]
              /\ m <> 0
              /\ index < 2 ^ EntriesPerBlock
              /\ slice data 0 BitsetSize = Ret bitset
              /\ index_byte bitset (index / 8) = Ret cell
              /\ getBitsetInData bitset index = Ret false)).

(** A write of [UpdateEntry]: [EntrySize] bytes, at the offset of the
    chunk's slot, in the chunk's block. *)
Definition writes_one_slot (chunk : ChunkNum) (c : Call) : Prop :=
  match c with
  | CallWrite m _ offset data _ =>
      m = chunkToBlockID chunk
      /\ offset = entryNumberToOffset (chunkToEntryNumber chunk)
      /\ len data = EntrySize
  | _ => True
  end.

End MoreVocabulary.

(** * Properties *)

(** Unfolds the plumbing of [M], so that a run can be followed call by call. *)
Ltac run := unfold mbind, M_bind, mret, M_ret, call, lift; simpl.

(** ** Chunk numbers *)

Section ChunkNumberProofs.
Context `{Imports}.

Lemma shiftl_1_pow2 (n : Z) : 0 <= n -> Z.shiftl 1 n - 1 = Z.ones n.
Proof. intros Hn. rewrite Z.ones_equiv, Z.shiftl_1_l. lia. Qed.

Lemma chunkToEntryNumber_mod (c : ChunkNum) :
  0 <= EntriesPerBlock -> chunkToEntryNumber c = c mod 2 ^ EntriesPerBlock.
Proof.
  intros HE. unfold chunkToEntryNumber.
  rewrite shiftl_1_pow2 by done. by apply Z.land_ones.
Qed.

Lemma chunkToBlockID_div (c : ChunkNum) :
  0 <= EntriesPerBlock -> chunkToBlockID c = c / 2 ^ EntriesPerBlock.
Proof. intros HE. unfold chunkToBlockID. by apply Z.shiftr_div_pow2. Qed.

Lemma entries_exponent_nonneg (i : Z) :
  0 <= i < 2 ^ EntriesPerBlock -> 0 <= EntriesPerBlock.
Proof.
  intros Hi. destruct (Z_lt_le_dec EntriesPerBlock 0) as [Hneg|]; [|done].
  rewrite Z.pow_neg_r in Hi by done. lia.
Qed.

(** C5. Composing a chunk number from a block id [m], [0 < m < 2^(64-E)], and
    an index [i < 2^E] does not panic, and decomposing the result gives [m]
    and [i] back; the chunk number is [m * 2^E + i], its entry index is its
    low [E] bits and its block id the bits above them. *)
Theorem chunk_compose_decompose (m i : Z) :
  0 < m < 2 ^ (64 - EntriesPerBlock) ->
  0 <= i < 2 ^ EntriesPerBlock ->
  exists c : ChunkNum,
    entryAndBlockToChunkNum m i = Ret c
    /\ chunkToBlockID c = m
    /\ chunkToEntryNumber c = i
    /\ c = m * 2 ^ EntriesPerBlock + i
    /\ chunkToEntryNumber c = c mod 2 ^ EntriesPerBlock
    /\ chunkToBlockID c = c / 2 ^ EntriesPerBlock.
Proof.
  intros Hm Hi.
  pose proof (entries_exponent_nonneg i Hi) as HE.
  assert (HE64 : EntriesPerBlock < 64).
  { destruct (Z_lt_le_dec EntriesPerBlock 64) as [|Hge]; [done|].
    destruct (Z.eq_dec (64 - EntriesPerBlock) 0) as [Heq|Hne].
    - rewrite Heq, Z.pow_0_r in Hm. lia.
    - rewrite Z.pow_neg_r in Hm by lia. lia. }
  assert (Hpow : 0 < 2 ^ EntriesPerBlock) by (apply Z.pow_pos_nonneg; lia).
  assert (Hshift : wrap64 (Z.shiftl m EntriesPerBlock) = m * 2 ^ EntriesPerBlock).
  { unfold wrap64. rewrite Z.shiftl_mul_pow2 by done.
    apply Z.mod_small. split; [apply Z.mul_nonneg_nonneg; lia|].
    replace (2 ^ 64) with (2 ^ (64 - EntriesPerBlock) * 2 ^ EntriesPerBlock).
    - apply Z.mul_lt_mono_pos_r; lia.
    - rewrite <- Z.pow_add_r by lia. f_equal. lia. }
  set (c := Z.lor (m * 2 ^ EntriesPerBlock) i).
  assert (Hblock : chunkToBlockID c = m).
  { unfold chunkToBlockID, c. rewrite Z.shiftr_lor.
    rewrite <- Z.shiftl_mul_pow2 by done.
    rewrite Z.shiftr_shiftl_l by done.
    rewrite Z.sub_diag, Z.shiftl_0_r.
    rewrite Z.shiftr_div_pow2 by done.
    rewrite Z.div_small by done. apply Z.lor_0_r. }
  assert (Hentry : chunkToEntryNumber c = i).
  { unfold chunkToEntryNumber, c. rewrite shiftl_1_pow2 by done.
    rewrite Z.land_lor_distr_l, !Z.land_ones by done.
    rewrite Z.mod_mul by lia. rewrite Z.mod_small by done. apply Z.lor_0_l. }
  exists c. split_and!; try done.
  - unfold entryAndBlockToChunkNum.
    rewrite Z.shiftl_1_l, Hshift.
    destruct (Z.eqb_spec m 0); [lia|].
    destruct (Z.leb_spec (2 ^ EntriesPerBlock) i); [lia|]. done.
  - pose proof (chunkToEntryNumber_mod c HE) as Hmod.
    pose proof (chunkToBlockID_div c HE) as Hdiv.
    rewrite (Z.div_mod c (2 ^ EntriesPerBlock)) by lia.
    rewrite <- Hmod, <- Hdiv, Hblock, Hentry. lia.
  - by apply chunkToEntryNumber_mod.
  - by apply chunkToBlockID_div.
Qed.

End ChunkNumberProofs.

Lemma chunk_compose_decompose_witness :
  exists c : ChunkNum,
    entryAndBlockToChunkNum (H := small) 5 6 = Ret c
    /\ chunkToBlockID (H := small) c = 5
    /\ chunkToEntryNumber (H := small) c = 6
    /\ c = 5 * 2 ^ 3 + 6
    /\ chunkToEntryNumber (H := small) c = c mod 2 ^ 3
    /\ chunkToBlockID (H := small) c = c / 2 ^ 3.
Proof.
  apply (chunk_compose_decompose (H := small) 5 6); simpl; lia.
Defined.

(** ** The allocation bitset *)

Lemma land_mask_testbit (c k : Z) :
  0 <= k -> (Z.land c (Z.shiftl 1 k) =? 0) = negb (Z.testbit c k).
Proof.
  intros Hk. rewrite Z.shiftl_1_l.
  destruct (Z.testbit c k) eqn:Hbit; simpl.
  - apply Z.eqb_neq. intros Hz.
    assert (Hb : Z.testbit (Z.land c (2 ^ k)) k = true).
    { rewrite Z.land_spec, Hbit, Z.pow2_bits_true by done. done. }
    rewrite Hz, Z.bits_0 in Hb. done.
  - apply Z.eqb_eq. apply Z.bits_inj'. intros n Hn.
    rewrite Z.land_spec, Z.bits_0, Z.pow2_bits_eqb by done.
    destruct (Z.eqb_spec k n) as [->|]; [by rewrite Hbit | by rewrite andb_false_r].
Qed.

Lemma getBitsetInData_testbit (bitset : list byte) (i : Z) :
  0 <= i ->
  getBitsetInData bitset i =
    match bitset !! Z.to_nat (i / 8) with
    | Some cell => Ret (Z.testbit cell (i mod 8))
    | None => Panic "index out of range"
    end.
Proof.
  intros Hi. unfold getBitsetInData, index_byte.
  destruct (bitset !! Z.to_nat (i / 8)) as [cell|]; simpl; [|done].
  rewrite land_mask_testbit by (apply Z.mod_pos_bound; lia).
  by rewrite negb_involutive.
Qed.

(** The scan of one cell: among the low [n] bits of a cell that is not all
    ones, it stops at the lowest zero bit. *)
Lemma findFirstZero_loop_least (n : nat) :
  forall (i x : Z),
    0 <= x < 2 ^ Z.of_nat n -> x <> 2 ^ Z.of_nat n - 1 ->
    exists k : Z,
      findFirstZero_loop n i x = Ret (i + k)
      /\ 0 <= k < Z.of_nat n
      /\ Z.testbit x k = false
      /\ (forall j, 0 <= j < k -> Z.testbit x j = true).
Proof.
  induction n as [|n IH]; intros i x Hx Hne.
  - simpl in *. lia.
  - rewrite Nat2Z.inj_succ, Z.pow_succ_r in * by lia.
    simpl findFirstZero_loop.
    pose proof (land_mask_testbit x 0 ltac:(lia)) as Hland.
    change (Z.shiftl 1 0) with 1 in Hland. rewrite Hland.
    destruct (Z.testbit x 0) eqn:Hbit0; simpl.
    + assert (Hodd : x = 2 * (x / 2) + 1).
      { rewrite Z.bit0_odd in Hbit0. rewrite (Zodd_bool_iff x) in Hbit0 by done.
        apply Zodd_div2 in Hbit0. rewrite Z.div2_div in Hbit0. lia. }
      destruct (IH (i + 1) (Z.shiftr x 1)) as (k & Hrun & Hk & Hzero & Hones).
      * rewrite Z.shiftr_div_pow2 by lia. change (2 ^ 1) with 2. lia.
      * rewrite Z.shiftr_div_pow2 by lia. change (2 ^ 1) with 2. lia.
      * exists (k + 1). split_and!; try lia.
        -- rewrite Hrun. f_equal. lia.
        -- rewrite Z.shiftr_spec in Hzero by lia. done.
        -- intros j Hj. destruct (Z.eq_dec j 0) as [->|]; [done|].
           specialize (Hones (j - 1) ltac:(lia)).
           rewrite Z.shiftr_spec in Hones by lia.
           by replace (j - 1 + 1) with j in Hones by lia.
    + exists 0. split_and!; try lia; try done.
      by rewrite Z.add_0_r.
Qed.

Lemma findFirstZero_least (x : byte) :
  is_byte x -> x <> 255 ->
  exists k : Z,
    findFirstZero x = Ret k
    /\ 0 <= k < 8
    /\ Z.testbit x k = false
    /\ (forall j, 0 <= j < k -> Z.testbit x j = true).
Proof.
  intros Hx Hne.
  destruct (findFirstZero_loop_least 8 0 x) as (k & Hrun & Hk & Hzero & Hones).
  - unfold is_byte in Hx. simpl. lia.
  - simpl. lia.
  - exists k. split_and!; try done; lia.
Qed.

Lemma testbit_255 (j : Z) : 0 <= j < 8 -> Z.testbit 255 j = true.
Proof.
  intros Hj. change 255 with (Z.ones 8). apply Z.ones_spec_low. lia.
Qed.

(** The scan of the cells from position [p] on. *)
Lemma findAvailableCell_from_found (bitset : list byte) :
  forall p : Z,
    Forall is_byte bitset ->
    (exists cell, cell ∈ bitset /\ cell <> 255) ->
    exists (q : nat) (k cell : Z),
      findAvailableCell_from p bitset = Ret ((p + Z.of_nat q) * 8 + k, true)
      /\ 0 <= k < 8
      /\ bitset !! q = Some cell
      /\ Z.testbit cell k = false
      /\ (forall j, 0 <= j < k -> Z.testbit cell j = true)
      /\ (forall q', (q' < q)%nat -> bitset !! q' = Some 255).
Proof.
  induction bitset as [|c rest IH]; intros p Hbytes (cell & Hin & Hne).
  - by apply elem_of_nil in Hin.
  - apply Forall_cons in Hbytes as [Hc Hrest]. simpl.
    destruct (Z.eqb_spec c 255) as [->|Hc255]; simpl.
    + apply elem_of_cons in Hin as [->|Hin]; [done|].
      destruct (IH (p + 1) Hrest) as (q & k & cell' & Hrun & Hk & Hq & Hzero & Hones & Hfull).
      { by exists cell. }
      exists (S q), k, cell'. split_and!; try done; try lia.
      * rewrite Hrun. do 2 f_equal. lia.
      * intros [|q'] Hlt; [done|]. simpl. apply Hfull. lia.
    + destruct (findFirstZero_least c Hc Hc255) as (k & Hrun & Hk & Hzero & Hones).
      exists 0%nat, k, c. rewrite Hrun. simpl. split_and!; try done; try lia.
      do 2 f_equal. lia.
Qed.

Lemma findAvailableCell_from_full (bitset : list byte) :
  forall p : Z,
    Forall (fun cell => cell = 255) bitset ->
    findAvailableCell_from p bitset = Ret (0, false).
Proof.
  induction bitset as [|c rest IH]; intros p Hfull; [done|].
  apply Forall_cons in Hfull as [-> Hrest]. simpl. by apply IH.
Qed.

(** C8. On a bitset with a clear bit, [findAvailableCell] finds
    ([found = true]) the smallest index whose bit is clear, every cell before
    that index's cell being 0xFF; on a bitset of 0xFF cells alone it reports
    [found = false]. *)
Theorem findAvailableCell_lowest_clear_bit (bitset : list byte) :
  Forall is_byte bitset ->
  ((exists i, 0 <= i /\ getBitsetInData bitset i = Ret false) ->
   exists i,
     findAvailableCell bitset = Ret (i, true)
     /\ 0 <= i
     /\ getBitsetInData bitset i = Ret false
     /\ (forall j, 0 <= j < i -> getBitsetInData bitset j = Ret true)
     /\ (forall c, 0 <= c < i / 8 -> index_byte bitset c = Ret 255))
  /\ (Forall (fun cell => cell = 255) bitset ->
      findAvailableCell bitset = Ret (0, false)).
Proof.
  intros Hbytes. split; [|apply findAvailableCell_from_full].
  intros (i0 & Hi0 & Hclear).
  rewrite getBitsetInData_testbit in Hclear by done.
  destruct (bitset !! Z.to_nat (i0 / 8)) as [cell0|] eqn:Hcell0; [|done].
  assert (Hne : cell0 <> 255).
  { intros ->. rewrite testbit_255 in Hclear; [done|]. apply Z.mod_pos_bound. lia. }
  destruct (findAvailableCell_from_found bitset 0 Hbytes)
    as (q & k & cell & Hrun & Hk & Hq & Hzero & Hones & Hfull).
  { exists cell0. split; [|done]. by eapply list_elem_of_lookup_2. }
  set (i := (0 + Z.of_nat q) * 8 + k) in *.
  assert (Hdiv : i / 8 = Z.of_nat q) by (unfold i; symmetry; apply Z.div_unique with k; lia).
  assert (Hmod : i mod 8 = k) by (unfold i; symmetry; apply Z.mod_unique with (Z.of_nat q); lia).
  exists i. split_and!; [done|lia|..].
  - rewrite getBitsetInData_testbit by lia.
    by rewrite Hdiv, Nat2Z.id, Hq, Hmod, Hzero.
  - intros j Hj. rewrite getBitsetInData_testbit by lia.
    assert (Hjq : 0 <= j / 8 <= Z.of_nat q).
    { split; [apply Z.div_pos; lia|]. rewrite <- Hdiv. apply Z.div_le_mono; lia. }
    pose proof (Z.mod_pos_bound j 8 ltac:(lia)) as Hjm.
    destruct (Z.eq_dec (j / 8) (Z.of_nat q)) as [Heq|Hneq].
    + rewrite Heq, Nat2Z.id, Hq. f_equal. apply Hones.
      pose proof (Z.div_mod j 8 ltac:(lia)). unfold i in Hj. lia.
    + rewrite (Hfull (Z.to_nat (j / 8))) by lia. f_equal. by apply testbit_255.
  - intros c Hc. unfold index_byte. rewrite (Hfull (Z.to_nat c)) by lia. done.
Qed.

Lemma findAvailableCell_lowest_clear_bit_witness :
  (exists i,
     findAvailableCell [255; 251] = Ret (i, true)
     /\ 0 <= i
     /\ getBitsetInData [255; 251] i = Ret false
     /\ (forall j, 0 <= j < i -> getBitsetInData [255; 251] j = Ret true)
     /\ (forall c, 0 <= c < i / 8 -> index_byte [255; 251] c = Ret 255))
  /\ findAvailableCell [255; 255] = Ret (0, false).
Proof.
  split.
  - apply (findAvailableCell_lowest_clear_bit [255; 251]).
    + repeat constructor; unfold is_byte; lia.
    + exists 10. split; [lia | reflexivity].
  - apply (findAvailableCell_lowest_clear_bit [255; 255]).
    + repeat constructor; unfold is_byte; lia.
    + repeat constructor.
Defined.

(** ** Entry slots *)

Section EntryProofs.
Context `{Imports}.

Lemma pad_loop_replicate (n : nat) (buf : list byte) :
  pad_loop n buf = buf ++ replicate n 0.
Proof.
  revert buf. induction n as [|n IH]; intros buf; simpl.
  - by rewrite app_nil_r.
  - by rewrite IH, <- app_assoc.
Qed.

Lemma serializeEntry_inv (e : MetadataEntry) (bytes : list byte) :
  serializeEntry e = (bytes, None) ->
  exists encoded,
    gob_Encode e = (encoded, None)
    /\ bytes = encoded ++ replicate (Z.to_nat (EntrySize - len encoded)) 0
    /\ len bytes = EntrySize.
Proof.
  unfold serializeEntry. destruct (gob_Encode e) as [encoded [err|]]; [done|].
  destruct (Z.eqb_spec (len (pad_loop (Z.to_nat (EntrySize - len encoded)) encoded)) EntrySize)
    as [Hlen|]; simpl; [|done].
  intros [= <-]. exists encoded. by rewrite <- pad_loop_replicate.
Qed.

(** C3. When [serializeEntry] succeeds on an entry, its result is the gob
    encoding followed by zeros, exactly [EntrySize] bytes long, and
    [deserializeEntry] reads the entry back from it. *)
Theorem serialize_deserialize_roundtrip (e : MetadataEntry) (bytes : list byte) :
  gob_reads_what_it_wrote ->
  serializeEntry e = (bytes, None) ->
  len bytes = EntrySize /\ deserializeEntry bytes = (e, None).
Proof.
  intros Hgob Hser.
  destruct (serializeEntry_inv e bytes Hser) as (encoded & Henc & -> & Hlen).
  split; [done|]. unfold deserializeEntry. by apply Hgob.
Qed.

End EntryProofs.

Lemma small_reads_what_it_wrote : gob_reads_what_it_wrote (H := small).
Proof.
  intros [v rs] encoded rest. simpl. unfold small_Encode. simpl.
  destruct (_ && _) eqn:Hok; [|done].
  intros [= <-]. simpl.
  assert (Hn : 1 + Z.of_nat (length rs) - 1 = Z.of_nat (length rs)) by lia.
  rewrite Hn, Nat2Z.id, length_app.
  destruct (Z.leb_spec 1 (1 + Z.of_nat (length rs))); [|lia].
  destruct (Z.leb_spec (Z.of_nat (length rs)) (Z.of_nat (length rs + length rest))); [|lia].
  simpl. by rewrite take_app_length.
Qed.

Lemma serialize_deserialize_roundtrip_witness :
  let e := {| MostRecentVersion := 1; Replicas := [7; 9] |} in
  serializeEntry (H := small) e = ([3; 1; 7; 9; 0; 0; 0; 0], None)
  /\ len [3; 1; 7; 9; 0; 0; 0; 0] = 8
  /\ deserializeEntry (H := small) [3; 1; 7; 9; 0; 0; 0; 0] = (e, None).
Proof.
  split; [reflexivity|].
  apply (serialize_deserialize_roundtrip (H := small)
           {| MostRecentVersion := 1; Replicas := [7; 9] |});
    [apply small_reads_what_it_wrote | reflexivity].
Defined.

(** ** ReadEntry *)

Section ReadProofs.
Context `{Imports} {L : Type} `{!Leasing L}.

(** C7. When the lease agent returns the block (it is held here) and the
    chunk's allocation bit in it is clear, [ReadEntry] returns the zero
    entry, the no-redirect sentinel and the does-not-exist error. *)
Theorem ReadEntry_deallocated (chunk : ChunkNum) (st st' : L)
    (data : list byte) (version : Version) (owner : ServerName) :
  leasing_Read (chunkToBlockID chunk) st = ((data, version, owner, None), st') ->
  getBitsetInData data (chunkToEntryNumber chunk) = Ret false ->
  ReadEntry chunk st
  = (Ret (zeroEntry, NoRedirect,
          Some (errors_New "entry doesn't exist to be able to be read")), st').
Proof.
  intros Hread Hbit. unfold ReadEntry, chunkToBlockAndOffset. run.
  rewrite Hread. simpl. rewrite Hbit. done.
Qed.

End ReadProofs.

Lemma ReadEntry_deallocated_witness :
  ReadEntry (H := small) (Leasing0 := scripted) 9
    [ReadReply ([253; 0; 0; 0; 0; 0; 0; 0; 0; 3; 1; 7; 9; 0; 0; 0; 0], 4, "", None)]
  = (Ret ({| MostRecentVersion := 0; Replicas := [] |}, "",
          Some "entry doesn't exist to be able to be read"), []).
Proof.
  apply (ReadEntry_deallocated (H := small) (Leasing0 := scripted) 9 _ []
           [253; 0; 0; 0; 0; 0; 0; 0; 0; 3; 1; 7; 9; 0; 0; 0; 0] 4 "");
    reflexivity.
Defined.

(** ** The Read adapters *)

Section AdapterProofs.

(** C9. Server side: whatever the chunkserver's [Read] returns, the response
    carries the version it returned; when it failed, the response carries the
    error's text, and an error with an empty text is a panic. Client side: a
    response with a non-empty error text is returned as an error with that
    text, with the response's version and no data. *)
Theorem Read_adapters_keep_version_and_error :
  (forall (S : Type) (server : Chunkserver S) (input : Chunkserver_Read) (st st' : S)
          (data : list byte) (version : Version) (err : option error),
      chunkserver_Read (read_Chunk input) (read_Offset input) (read_Length input)
        (read_Version input) st = ((data, version, err), st') ->
      proxyChunkserverAsTwirp_Read input st =
        match err with
        | None =>
            (Ret (Some {| result_Data := data; result_Version := version;
                          result_Error := "" |}, None), st')
        | Some e =>
            if String.eqb e ""
            then (Panic "expected nonempty error code", st')
            else (Ret (Some {| result_Data := data; result_Version := version;
                               result_Error := e |}, None), st')
        end)
  /\ (forall (T : Type) (client : TwirpChunkserver T) (chunk : ChunkNum)
             (offset length : Z) (minimum : Version) (st st' : T)
             (result : Chunkserver_Read_Result),
        twirp_Read {| read_Chunk := chunk; read_Offset := offset;
                      read_Length := length; read_Version := minimum |} st
          = ((Some result, None), st') ->
        result_Error result <> "" ->
        proxyTwirpAsChunkserver_Read chunk offset length minimum st
        = (Ret ([], result_Version result, Some (errors_New (result_Error result))), st')).
Proof.
  split.
  - intros S server input st st' data version err Hread.
    unfold proxyChunkserverAsTwirp_Read. run. rewrite Hread. simpl.
    destruct err as [e|]; [|done]. by destruct (String.eqb e "").
  - intros T client chunk offset length minimum st st' result Hread Herr.
    unfold proxyTwirpAsChunkserver_Read. run. rewrite Hread. simpl.
    apply String.eqb_neq in Herr. by rewrite Herr.
Qed.

End AdapterProofs.

Lemma Read_adapters_keep_version_and_error_witness :
  proxyChunkserverAsTwirp_Read (Chunkserver0 := stale_server)
    {| read_Chunk := 7; read_Offset := 0; read_Length := 5; read_Version := 4 |} tt
  = (Ret (Some {| result_Data := []; result_Version := 3; result_Error := "stale replica" |},
          None), tt)
  /\ proxyTwirpAsChunkserver_Read (TwirpChunkserver0 := canned_client) 7 0 5 4
       (Some {| result_Data := []; result_Version := 3; result_Error := "stale replica" |})
     = (Ret ([], 3, Some "stale replica"),
        Some {| result_Data := []; result_Version := 3; result_Error := "stale replica" |}).
Proof.
  destruct Read_adapters_keep_version_and_error as [Hserver Hclient]. split.
  - apply (Hserver unit stale_server
             {| read_Chunk := 7; read_Offset := 0; read_Length := 5; read_Version := 4 |}
             tt tt [] 3 (Some "stale replica")).
    reflexivity.
  - apply (Hclient _ canned_client 7 0 5 4 _ _
             {| result_Data := []; result_Version := 3; result_Error := "stale replica" |}).
    + reflexivity.
    + discriminate.
Defined.

(** ** NewEntry *)

Section NewEntryProofs.
Context `{Imports} {L : Type} `{!Leasing L}.

Lemma for_loop_unfold {A} (fuel : nat) (body : M L (option A)) (st : L) :
  for_loop (S fuel) body st =
    match body st with
    | (Ret (Some a), st') => (Ret a, st')
    | (Ret None, st') => for_loop fuel body st'
    | (Panic msg, st') => (Panic msg, st')
    | (OutOfFuel, st') => (OutOfFuel, st')
    end.
Proof.
  simpl. run. destruct (body st) as [[[a|]|msg|] st']; done.
Qed.

(** What [updateBitset] does once the block is read and the bit found to
    differ from the value wanted: one write of the cell, whose outcome it
    reports. *)
Lemma updateBitset_writes (metachunk : MetadataID) (index : Z) (value : bool)
    (st st1 : L) (data bitset : list byte) (version : Version) (owner : ServerName)
    (existing : bool) :
  leasing_Read metachunk st = ((data, version, owner, None), st1) ->
  slice data 0 BitsetSize = Ret bitset ->
  getBitsetInData bitset index = Ret existing ->
  existing <> value ->
  exists (offset : Z) (newData : list byte),
    updateBitsetInData bitset index value = Ret (offset, newData)
    /\ updateBitset metachunk index value st =
         let '((_, _, err), st2) := leasing_Write metachunk version offset newData st1 in
         match err with
         | Some e => (Ret (false, Some e), st2)
         | None => (Ret (true, None), st2)
         end.
Proof.
  intros Hread Hslice Hbit Hne.
  unfold getBitsetInData in Hbit. unfold updateBitsetInData.
  destruct (index_byte bitset (index / 8)) as [cell| |] eqn:Hcell; try done.
  simpl in *. eexists _, _. split; [done|].
  unfold updateBitset. run. rewrite Hread. simpl. rewrite Hslice. simpl.
  unfold getBitsetInData, updateBitsetInData. rewrite Hcell. simpl.
  injection Hbit as Hbit. rewrite Hbit.
  destruct (Bool.eqb_spec existing value) as [|_]; [done|].
  destruct (leasing_Write _ _ _ _ _) as [[[v' o'] [e|]] st2]; done.
Qed.

Lemma updateBitset_clobbered (metachunk : MetadataID) (index : Z) (value : bool)
    (st st1 : L) (data bitset : list byte) (version : Version) (owner : ServerName) :
  leasing_Read metachunk st = ((data, version, owner, None), st1) ->
  slice data 0 BitsetSize = Ret bitset ->
  getBitsetInData bitset index = Ret value ->
  updateBitset metachunk index value st = (Ret (false, None), st1).
Proof.
  intros Hread Hslice Hbit.
  unfold updateBitset. run. rewrite Hread. simpl. rewrite Hslice. simpl.
  rewrite Hbit. simpl. by rewrite Bool.eqb_reflx.
Qed.

(** [updateBitset] answers "clobbered" (false, no error) only when it read
    the block and found the bit already at the value wanted; it has written
    nothing then. *)
Lemma updateBitset_false_nil (metachunk : MetadataID) (index : Z) (value : bool)
    (st st' : L) :
  updateBitset metachunk index value st = (Ret (false, None), st') ->
  exists (data bitset : list byte) (version : Version) (owner : ServerName),
    leasing_Read metachunk st = ((data, version, owner, None), st')
    /\ slice data 0 BitsetSize = Ret bitset
    /\ getBitsetInData bitset index = Ret value.
Proof.
  unfold updateBitset. run.
  destruct (leasing_Read metachunk st) as [[[[data version] owner] [e|]] st1]; [done|].
  simpl. destruct (slice data 0 BitsetSize) as [bitset| |] eqn:Hslice; simpl; try done.
  destruct (getBitsetInData bitset index) as [existing| |] eqn:Hbit; simpl; try done.
  destruct (Bool.eqb_spec existing value) as [->|Hne].
  - intros [= <-]. by exists data, bitset, version, owner.
  - unfold getBitsetInData in Hbit. unfold updateBitsetInData.
    destruct (index_byte bitset (index / 8)) as [cell| |]; simpl in *; try done.
    destruct (leasing_Write _ _ _ _ _) as [[[v' o'] [e|]] st2]; simpl; done.
Qed.

(** One turn of [NewEntry], by the answers of its two steps. *)
Lemma NewEntry_body_steps (search : nat) (st : L) :
  NewEntry_body search st =
    match findAnyFreeChunk search st with
    | (Ret (_, _, Some e), st1) => (Ret (Some (0, Some e)), st1)
    | (Ret (metachunk, index, None), st1) =>
        match updateBitset metachunk index true st1 with
        | (Ret (_, Some e), st2) => (Ret (Some (0, Some e)), st2)
        | (Ret (true, None), st2) =>
            (c ← entryAndBlockToChunkNum metachunk index; Ret (Some (c, None)), st2)
        | (Ret (false, None), st2) => (Ret None, st2)
        | (Panic msg, st2) => (Panic msg, st2)
        | (OutOfFuel, st2) => (OutOfFuel, st2)
        end
    | (Panic msg, st1) => (Panic msg, st1)
    | (OutOfFuel, st1) => (OutOfFuel, st1)
    end.
Proof.
  unfold NewEntry_body. run.
  destruct (findAnyFreeChunk search st) as [[[[metachunk index] [e|]]|msg|] st1]; try done.
  destruct (updateBitset metachunk index true st1) as [[[[|] [e|]]|msg|] st2]; try done.
  unfold outcome_bind. by destruct (entryAndBlockToChunkNum metachunk index).
Qed.

(** C4. One turn of [NewEntry] that has found block [metachunk] and free
    index [index] and read the block: if the bit is clear and the write that
    sets it is accepted, [NewEntry] returns what [entryAndBlockToChunkNum]
    composes, which for a block other than 0 and an index below [2^E] is
    [(metachunk << E) | index]; if the bit is read as already set, nothing is
    returned and the loop starts over with a new search. *)
Theorem NewEntry_returns_composed_or_restarts (fuel search : nat) (st st1 st2 : L)
    (metachunk : MetadataID) (index : Z) (data bitset : list byte)
    (version : Version) (owner : ServerName) :
  findAnyFreeChunk search st = (Ret (metachunk, index, None), st1) ->
  leasing_Read metachunk st1 = ((data, version, owner, None), st2) ->
  slice data 0 BitsetSize = Ret bitset ->
  (forall (offset : Z) (newData : list byte) (v' : Version) (o' : ServerName) (st3 : L),
      getBitsetInData bitset index = Ret false ->
      updateBitsetInData bitset index true = Ret (offset, newData) ->
      leasing_Write metachunk version offset newData st2 = ((v', o', None), st3) ->
      NewEntry (S fuel) search st
      = (c ← entryAndBlockToChunkNum metachunk index; Ret (c, None), st3)
      /\ (metachunk <> 0 -> 0 <= index < 2 ^ EntriesPerBlock ->
          NewEntry (S fuel) search st
          = (Ret (Z.lor (wrap64 (Z.shiftl metachunk EntriesPerBlock)) index, None), st3)))
  /\ (getBitsetInData bitset index = Ret true ->
      NewEntry (S fuel) search st = NewEntry fuel search st2).
Proof.
  intros Hfind Hread Hslice. split.
  - intros offset newData v' o' st3 Hbit Hupd Hwrite.
    destruct (updateBitset_writes metachunk index true st1 st2 data bitset version owner false
                Hread Hslice Hbit ltac:(done)) as (offset' & newData' & Hupd' & Hrun).
    rewrite Hupd in Hupd'. injection Hupd' as <- <-.
    rewrite Hwrite in Hrun.
    assert (Hturn : NewEntry (S fuel) search st
                    = (c ← entryAndBlockToChunkNum metachunk index; Ret (c, None), st3)).
    { unfold NewEntry. rewrite for_loop_unfold, NewEntry_body_steps, Hfind, Hrun.
      by destruct (entryAndBlockToChunkNum metachunk index). }
    split; [done|]. intros Hm Hi. rewrite Hturn.
    unfold entryAndBlockToChunkNum. rewrite Z.shiftl_1_l.
    destruct (Z.eqb_spec metachunk 0); [done|].
    destruct (Z.leb_spec (2 ^ EntriesPerBlock) index); [lia|]. done.
  - intros Hbit. unfold NewEntry.
    rewrite for_loop_unfold, NewEntry_body_steps, Hfind.
    by rewrite (updateBitset_clobbered metachunk index true st1 st2 data bitset version owner).
Qed.

(** C10. In a turn of [NewEntry] that has found a block and a free index,
    read the block and found the bit clear, a write that fails, with any
    error, ends [NewEntry] with that error and chunk number 0. A turn ends
    without returning only when [updateBitset] has read the block without
    error and found the bit already set, having written nothing. *)
Theorem NewEntry_returns_write_error :
  (forall (fuel search : nat) (st st1 st2 st3 : L)
          (metachunk : MetadataID) (index : Z) (data bitset : list byte)
          (version v' : Version) (owner o' : ServerName)
          (offset : Z) (newData : list byte) (e : error),
      findAnyFreeChunk search st = (Ret (metachunk, index, None), st1) ->
      leasing_Read metachunk st1 = ((data, version, owner, None), st2) ->
      slice data 0 BitsetSize = Ret bitset ->
      getBitsetInData bitset index = Ret false ->
      updateBitsetInData bitset index true = Ret (offset, newData) ->
      leasing_Write metachunk version offset newData st2 = ((v', o', Some e), st3) ->
      NewEntry (S fuel) search st = (Ret (0, Some e), st3))
  /\ (forall (search : nat) (st st' : L),
        NewEntry_body search st = (Ret None, st') ->
        exists (metachunk : MetadataID) (index : Z) (st1 : L) (data bitset : list byte)
               (version : Version) (owner : ServerName),
          findAnyFreeChunk search st = (Ret (metachunk, index, None), st1)
          /\ updateBitset metachunk index true st1 = (Ret (false, None), st')
          /\ leasing_Read metachunk st1 = ((data, version, owner, None), st')
          /\ slice data 0 BitsetSize = Ret bitset
          /\ getBitsetInData bitset index = Ret true).
Proof.
  split.
  - intros fuel search st st1 st2 st3 metachunk index data bitset version v' owner o'
      offset newData e Hfind Hread Hslice Hbit Hupd Hwrite.
    destruct (updateBitset_writes metachunk index true st1 st2 data bitset version owner false
                Hread Hslice Hbit ltac:(done)) as (offset' & newData' & Hupd' & Hrun).
    rewrite Hupd in Hupd'. injection Hupd' as <- <-.
    rewrite Hwrite in Hrun.
    unfold NewEntry. by rewrite for_loop_unfold, NewEntry_body_steps, Hfind, Hrun.
  - intros search st st'. rewrite NewEntry_body_steps.
    destruct (findAnyFreeChunk search st) as [[[[metachunk index] [e|]]|msg|] st1] eqn:Hfind;
      try done.
    destruct (updateBitset metachunk index true st1) as [[[[|] [e|]]|msg|] st2] eqn:Hupd;
      try done.
    + by destruct (entryAndBlockToChunkNum metachunk index).
    + intros [= <-].
      destruct (updateBitset_false_nil _ _ _ _ _ Hupd)
        as (data & bitset & version & owner & Hread & Hslice & Hbit).
      by exists metachunk, index, st1, data, bitset, version, owner.
Qed.

End NewEntryProofs.

Lemma NewEntry_returns_composed_or_restarts_witness :
  NewEntry (H := small) (Leasing0 := scripted) 1 1
    [ListLeasesReply ([1], None);
     ReadReply (small_block 1, 4, "", None);
     ReadReply (small_block 1, 4, "", None);
     WriteReply (5, "", None)]
  = (Ret (9, None), [])
  /\ NewEntry (H := small) (Leasing0 := scripted) 2 1
       [ListLeasesReply ([1], None);
        ReadReply (small_block 1, 4, "", None);
        ReadReply (small_block 3, 5, "", None);
        ListLeasesReply ([1], None);
        ReadReply (small_block 3, 5, "", None);
        ReadReply (small_block 3, 5, "", None);
        WriteReply (6, "", None)]
     = (Ret (10, None), []).
Proof.
  split.
  - destruct (NewEntry_returns_composed_or_restarts (H := small) (Leasing0 := scripted) 0 1
                [ListLeasesReply ([1], None);
                 ReadReply (small_block 1, 4, "", None);
                 ReadReply (small_block 1, 4, "", None);
                 WriteReply (5, "", None)]
                [ReadReply (small_block 1, 4, "", None); WriteReply (5, "", None)]
                [WriteReply (5, "", None)]
                1 1 (small_block 1) [1] 4 "" eq_refl eq_refl eq_refl) as [Hset _].
    destruct (Hset 0 [3] 5 "" [] eq_refl eq_refl eq_refl) as [_ Hcomposed].
    apply Hcomposed; simpl; lia.
  - destruct (NewEntry_returns_composed_or_restarts (H := small) (Leasing0 := scripted) 1 1
                [ListLeasesReply ([1], None);
                 ReadReply (small_block 1, 4, "", None);
                 ReadReply (small_block 3, 5, "", None);
                 ListLeasesReply ([1], None);
                 ReadReply (small_block 3, 5, "", None);
                 ReadReply (small_block 3, 5, "", None);
                 WriteReply (6, "", None)]
                [ReadReply (small_block 3, 5, "", None);
                 ListLeasesReply ([1], None);
                 ReadReply (small_block 3, 5, "", None);
                 ReadReply (small_block 3, 5, "", None);
                 WriteReply (6, "", None)]
                [ListLeasesReply ([1], None);
                 ReadReply (small_block 3, 5, "", None);
                 ReadReply (small_block 3, 5, "", None);
                 WriteReply (6, "", None)]
                1 1 (small_block 3) [3] 5 "" eq_refl eq_refl eq_refl) as [_ Hrestart].
    rewrite (Hrestart eq_refl). reflexivity.
Defined.

Lemma NewEntry_returns_write_error_witness :
  NewEntry (H := small) (Leasing0 := scripted) 5 1
    [ListLeasesReply ([1], None);
     ReadReply (small_block 1, 4, "", None);
     ReadReply (small_block 1, 4, "", None);
     WriteReply (0, "", Some "version mismatch")]
  = (Ret (0, Some "version mismatch"), []).
Proof.
  destruct (NewEntry_returns_write_error (H := small) (Leasing0 := scripted)) as [Hfail _].
  apply (Hfail 4%nat 1%nat _
           [ReadReply (small_block 1, 4, "", None); WriteReply (0, "", Some "version mismatch")]
           [WriteReply (0, "", Some "version mismatch")] []
           1 1 (small_block 1) [1] 4 0 "" "" 0 [3] "version mismatch");
    reflexivity.
Defined.

(** ** The retry loops of UpdateEntry and DeleteEntry *)

Section RetryProofs.
Context `{Imports} {L : Type} `{!Leasing L}.

(** The turn of [UpdateEntry] from its write on. The bytes written are the
    serialization of the entry that was read. *)
Lemma UpdateEntry_body_write (chunk : ChunkNum) (previous entry : MetadataEntry) (st st1 : L)
    (data updated : list byte) (version : Version) (stored : MetadataEntry) :
  turn_reaches_write chunk previous st st1 data version stored ->
  serializeEntry stored = (updated, None) ->
  UpdateEntry_body chunk previous entry st =
    let '((_, owner', err), st2) :=
      leasing_Write (chunkToBlockID chunk) version
        (entryNumberToOffset (chunkToEntryNumber chunk)) updated st1 in
    match err with
    | None => (Ret (Some (NoRedirect, None)), st2)
    | Some e => if version =? 0 then (Ret (Some (owner', Some e)), st2) else (Ret None, st2)
    end.
Proof.
  intros (owner & slot & Hread & Hbit & Hslice & Hdec & Heq) Hser.
  destruct (serializeEntry_inv stored updated Hser) as (_ & _ & _ & Hlen).
  unfold UpdateEntry_body, chunkToBlockAndOffset. run.
  rewrite Hread. simpl. rewrite Hbit. simpl. rewrite Hslice. simpl.
  rewrite Hdec, Heq. simpl. rewrite Hser, Hlen, Z.eqb_refl. simpl.
  destruct (leasing_Write _ _ _ _ _) as [[[v' o'] [e|]] st2]; [|done].
  by destruct (version =? 0).
Qed.

(** The turn of [DeleteEntry] from its write on. *)
Lemma DeleteEntry_body_write (chunk : ChunkNum) (previous : MetadataEntry) (st st1 : L)
    (data newData : list byte) (updateOffset : Z) (version : Version) (stored : MetadataEntry) :
  turn_reaches_write chunk previous st st1 data version stored ->
  updateBitsetInData data (chunkToEntryNumber chunk) false = Ret (updateOffset, newData) ->
  DeleteEntry_body chunk previous st =
    let '((_, owner', err), st2) :=
      leasing_Write (chunkToBlockID chunk) version updateOffset newData st1 in
    match err with
    | None => (Ret (Some (NoRedirect, None)), st2)
    | Some e => if version =? 0 then (Ret (Some (owner', Some e)), st2) else (Ret None, st2)
    end.
Proof.
  intros (owner & slot & Hread & Hbit & Hslice & Hdec & Heq) Hupd.
  unfold DeleteEntry_body, chunkToBlockAndOffset. run.
  rewrite Hread. simpl. rewrite Hbit. simpl. rewrite Hslice. simpl.
  rewrite Hdec, Heq. simpl. rewrite Hupd. simpl.
  destruct (leasing_Write _ _ _ _ _) as [[[v' o'] [e|]] st2]; [|done].
  by destruct (version =? 0).
Qed.

(** C2, as the code has it. After a write that failed, with whatever error,
    the loop of [UpdateEntry] and that of [DeleteEntry] go around again when
    the block version read in that turn is not 0, and return the write's
    owner and error when it is 0. *)
Theorem failed_write_retries_unless_version_zero (fuel : nat) (chunk : ChunkNum)
    (previous entry : MetadataEntry) (st st1 : L)
    (data : list byte) (version : Version) (stored : MetadataEntry) :
  turn_reaches_write chunk previous st st1 data version stored ->
  (forall (updated : list byte) (v' : Version) (owner' : ServerName) (e : error) (st2 : L),
      serializeEntry stored = (updated, None) ->
      leasing_Write (chunkToBlockID chunk) version
        (entryNumberToOffset (chunkToEntryNumber chunk)) updated st1
        = ((v', owner', Some e), st2) ->
      UpdateEntry (S fuel) chunk previous entry st =
        if version =? 0 then (Ret (owner', Some e), st2)
        else UpdateEntry fuel chunk previous entry st2)
  /\ (forall (updateOffset : Z) (newData : list byte) (v' : Version) (owner' : ServerName)
             (e : error) (st2 : L),
        updateBitsetInData data (chunkToEntryNumber chunk) false = Ret (updateOffset, newData) ->
        leasing_Write (chunkToBlockID chunk) version updateOffset newData st1
          = ((v', owner', Some e), st2) ->
        DeleteEntry (S fuel) chunk previous st =
          if version =? 0 then (Ret (owner', Some e), st2)
          else DeleteEntry fuel chunk previous st2).
Proof.
  intros Hturn. split.
  - intros updated v' owner' e st2 Hser Hwrite.
    unfold UpdateEntry. rewrite for_loop_unfold.
    rewrite (UpdateEntry_body_write _ _ _ _ _ _ _ _ _ Hturn Hser), Hwrite.
    by destruct (version =? 0).
  - intros updateOffset newData v' owner' e st2 Hupd Hwrite.
    unfold DeleteEntry. rewrite for_loop_unfold.
    rewrite (DeleteEntry_body_write _ _ _ _ _ _ _ _ _ Hturn Hupd), Hwrite.
    by destruct (version =? 0).
Qed.

End RetryProofs.

Lemma failed_write_retries_unless_version_zero_witness :
  UpdateEntry (H := small) (Leasing0 := scripted) 2 8 entry_v1 entry_v2
    [ReadReply (block_v1, 4, "", None); WriteReply (0, "", Some "version mismatch");
     ReadReply (block_v1, 5, "", None); WriteReply (6, "", None)]
  = UpdateEntry (H := small) (Leasing0 := scripted) 1 8 entry_v1 entry_v2
      [ReadReply (block_v1, 5, "", None); WriteReply (6, "", None)]
  /\ DeleteEntry (H := small) (Leasing0 := scripted) 2 8 entry_v1
       [ReadReply (block_v1, 0, "", None); WriteReply (0, "B", Some "not owner")]
     = (Ret ("B", Some "not owner"), []).
Proof.
  split.
  - destruct (failed_write_retries_unless_version_zero (H := small) (Leasing0 := scripted)
                1 8 entry_v1 entry_v2
                [ReadReply (block_v1, 4, "", None); WriteReply (0, "", Some "version mismatch");
                 ReadReply (block_v1, 5, "", None); WriteReply (6, "", None)]
                [WriteReply (0, "", Some "version mismatch");
                 ReadReply (block_v1, 5, "", None); WriteReply (6, "", None)]
                block_v1 4 entry_v1) as [Hupdate _].
    { exists "", [3; 1; 7; 9; 0; 0; 0; 0]. repeat split. }
    apply (Hupdate [3; 1; 7; 9; 0; 0; 0; 0] 0 "" "version mismatch"); reflexivity.
  - destruct (failed_write_retries_unless_version_zero (H := small) (Leasing0 := scripted)
                1 8 entry_v1 entry_v2
                [ReadReply (block_v1, 0, "", None); WriteReply (0, "B", Some "not owner")]
                [WriteReply (0, "B", Some "not owner")]
                block_v1 0 entry_v1) as [_ Hdelete].
    { exists "", [3; 1; 7; 9; 0; 0; 0; 0]. repeat split. }
    apply (Hdelete 0 [0] 0 "B" "not owner"); reflexivity.
Defined.

(** C2, as the specification has it, fails: a write refused with an error
    that is no version mismatch (the lease was lost to B), at block version
    4, is not returned to the caller. Both loops read the block again and
    write again, and the caller gets the second write's success. *)
Lemma lost_lease_write_error_is_retried :
  let script :=
    [ReadReply (block_v1, 4, "", None); WriteReply (0, "B", Some "not owner");
     ReadReply (block_v1, 5, "", None); WriteReply (6, "", None)] in
  UpdateEntry (H := small) (Leasing0 := traced scripted) 2 8 entry_v1 entry_v2 (script, [])
  = (Ret ("", None),
     ([], [CallRead 1 (block_v1, 4, "", None);
           CallWrite 1 4 1 [3; 1; 7; 9; 0; 0; 0; 0] (0, "B", Some "not owner");
           CallRead 1 (block_v1, 5, "", None);
           CallWrite 1 5 1 [3; 1; 7; 9; 0; 0; 0; 0] (6, "", None)]))
  /\ DeleteEntry (H := small) (Leasing0 := traced scripted) 2 8 entry_v1 (script, [])
     = (Ret ("", None),
        ([], [CallRead 1 (block_v1, 4, "", None);
              CallWrite 1 4 0 [0] (0, "B", Some "not owner");
              CallRead 1 (block_v1, 5, "", None);
              CallWrite 1 5 0 [0] (6, "", None)]))
  /\ (UpdateEntry (H := small) (Leasing0 := traced scripted) 2 8 entry_v1 entry_v2 (script, [])).1
     <> Ret ("B", Some "not owner")
  /\ (DeleteEntry (H := small) (Leasing0 := traced scripted) 2 8 entry_v1 (script, [])).1
     <> Ret ("B", Some "not owner").
Proof.
  repeat split; discriminate.
Qed.

(** ** UpdateEntry and its third argument *)

(** The third argument of [UpdateEntry] plays no part in what it does: two
    calls that differ in it alone run alike against any agent. *)
Lemma UpdateEntry_ignores_entry `{Imports} {L : Type} `{!Leasing L} (fuel : nat)
    (chunk : ChunkNum) (previous entry entry' : MetadataEntry) :
  UpdateEntry fuel chunk previous entry = UpdateEntry fuel chunk previous entry'.
Proof. reflexivity. Qed.

(** What every turn of [UpdateEntry] writes: the serialization of the entry
    it has just read from the slot. *)
Lemma UpdateEntry_writes_what_it_read `{Imports} {L : Type} (agent : Leasing L)
    (chunk : ChunkNum) (previous entry : MetadataEntry) (st st' : L) (log log' : list Call)
    (x : option (ServerName * option error)) :
  UpdateEntry_body (Leasing0 := traced agent) chunk previous entry (st, log)
    = (Ret x, (st', log')) ->
  forall m version offset data reply,
    CallWrite m version offset data reply ∈ log' ->
    CallWrite m version offset data reply ∈ log
    \/ exists (block slot : list byte) (stored : MetadataEntry),
         slice block (entryNumberToOffset (chunkToEntryNumber chunk))
           (wrap32 (entryNumberToOffset (chunkToEntryNumber chunk) + EntrySize)) = Ret slot
         /\ deserializeEntry slot = (stored, None)
         /\ serializeEntry stored = (data, None).
Proof.
  unfold UpdateEntry_body, chunkToBlockAndOffset. run.
  destruct (leasing_Read (chunkToBlockID chunk) st) as [[[[block version] owner] err] st1].
  assert (Hread : forall c reply m' v' off' d' r',
             CallWrite m' v' off' d' r' ∈ log ++ [CallRead c reply] ->
             CallWrite m' v' off' d' r' ∈ log).
  { intros c reply m' v' off' d' r' Hin.
    apply elem_of_app in Hin as [Hin|Hin]; [done|].
    by apply list_elem_of_singleton in Hin. }
  destruct err as [e|]; simpl.
  { intros [= <- <- <-] m v off d r' Hin. left. by eapply Hread. }
  destruct (getBitsetInData block (chunkToEntryNumber chunk)) as [found| |]; simpl; try done.
  destruct found; simpl.
  2: { intros [= <- <- <-] m v off d r' Hin. left. by eapply Hread. }
  destruct (slice block _ _) as [slot| |] eqn:Hslice; simpl; try done.
  destruct (deserializeEntry slot) as [stored [e|]] eqn:Hdec; simpl.
  { intros [= <- <- <-] m v off d r' Hin. left. by eapply Hread. }
  destruct (Equals stored previous); simpl.
  2: { intros [= <- <- <-] m v off d r' Hin. left. by eapply Hread. }
  destruct (serializeEntry stored) as [updated [e|]] eqn:Hser; simpl.
  { intros [= <- <- <-] m v off d r' Hin. left. by eapply Hread. }
  destruct (negb (len updated =? EntrySize)); simpl; [done|].
  destruct (leasing_Write _ _ _ _ _) as [[[v' o'] werr] st2]. simpl.
  intros Hx m v off d r' Hin.
  assert (Hlog : log' = (log ++ [CallRead (chunkToBlockID chunk) (block, version, owner, None)])
                        ++ [CallWrite (chunkToBlockID chunk) version
                              (entryNumberToOffset (chunkToEntryNumber chunk)) updated
                              (v', o', werr)]).
  { destruct werr as [e|]; simpl in Hx; [destruct (version =? 0)|]; by injection Hx. }
  rewrite Hlog in Hin. apply elem_of_app in Hin as [Hin|Hin].
  - left. by eapply Hread.
  - apply list_elem_of_singleton in Hin. injection Hin as -> -> -> -> ->.
    right. by exists block, slot, stored.
Qed.

(** C1, on the code: [UpdateEntry(8, entry_v1, entry_v2)] succeeds against a
    store whose slot for chunk 8 holds [entry_v1], and the bytes it writes
    are the serialization of [entry_v1]: afterwards the slot is as it was
    (only the block version has moved) and [ReadEntry] returns [entry_v1],
    not [entry_v2]. *)
Theorem UpdateEntry_writes_old_entry_back :
  let run1 := UpdateEntry (H := small) (Leasing0 := traced (store_agent (H := small)))
                1 8 entry_v1 entry_v2 (store_v1, []) in
  run1.1 = Ret ("", None)
  /\ run1.2.2 = [CallRead 1 (block_v1, 4, "", None);
                 CallWrite 1 4 1 [3; 1; 7; 9; 0; 0; 0; 0] (5, "", None)]
  /\ (serializeEntry (H := small) entry_v1).1 = [3; 1; 7; 9; 0; 0; 0; 0]
  /\ (serializeEntry (H := small) entry_v2).1 = [3; 2; 7; 9; 0; 0; 0; 0]
  /\ store_blocks run1.2.1 !! 1 = Some (block_v1, 5)
  /\ (ReadEntry (H := small) (Leasing0 := store_agent (H := small)) 8 run1.2.1).1
     = Ret (entry_v1, "", None).
Proof.
  repeat split.
Qed.

(** ** DeleteEntry and the bytes it writes *)

Section DeleteProofs.
Context `{Imports} {L : Type} (agent : Leasing L).

Lemma DeleteEntry_body_traced (chunk : ChunkNum) (previous : MetadataEntry)
    (st st' : L) (log log' : list Call) (x : option (ServerName * option error)) :
  DeleteEntry_body (Leasing0 := traced agent) chunk previous (st, log) = (Ret x, (st', log')) ->
  (exists reply e r, log' = log ++ [CallRead (chunkToBlockID chunk) reply]
                     /\ x = Some (r, Some e))
  \/ (exists data version owner cell slot reply,
        log' = log ++ delete_turn chunk data version owner cell reply
        /\ index_byte data (chunkToEntryNumber chunk / 8) = Ret cell
        /\ slice data (entryNumberToOffset (chunkToEntryNumber chunk))
             (wrap32 (entryNumberToOffset (chunkToEntryNumber chunk) + EntrySize)) = Ret slot
        /\ match reply with
           | (_, _, None) => x = Some (NoRedirect, None)
           | (_, owner', Some e) => x = if version =? 0 then Some (owner', Some e) else None
           end).
Proof.
  unfold DeleteEntry_body, chunkToBlockAndOffset. run.
  destruct (leasing_Read (chunkToBlockID chunk) st) as [[[[data version] owner] err] st1].
  destruct err as [e|]; simpl.
  { intros [= <- <- <-]. left. by eexists _, _, _. }
  unfold getBitsetInData, updateBitsetInData.
  destruct (index_byte data (chunkToEntryNumber chunk / 8)) as [cell| |] eqn:Hcell;
    simpl; try done.
  destruct (negb (Z.land cell _ =? 0)); simpl.
  2: { intros [= <- <- <-]. left. by eexists _, _, _. }
  destruct (slice data _ _) as [slot| |] eqn:Hslice; simpl; try done.
  destruct (deserializeEntry slot) as [stored [e|]]; simpl.
  { intros [= <- <- <-]. left. by eexists _, _, _. }
  destruct (Equals stored previous); simpl.
  2: { intros [= <- <- <-]. left. by eexists _, _, _. }
  destruct (leasing_Write _ _ _ _ _) as [[[v' o'] werr] st2] eqn:Hwrite. simpl.
  intros Hx. right. exists data, version, owner, cell, slot, (v', o', werr).
  destruct werr as [e|]; simpl in Hx.
  - destruct (version =? 0); injection Hx as <- <- <-;
      by rewrite <- app_assoc.
  - injection Hx as <- <- <-. by rewrite <- app_assoc.
Qed.

(** A run of [DeleteEntry] that ends in success: turns whose write was
    refused, then one turn whose write was accepted. *)
Lemma DeleteEntry_traced_success (chunk : ChunkNum) (previous : MetadataEntry) (fuel : nat) :
  forall (st st' : L) (log log' : list Call) (r : ServerName),
    DeleteEntry (Leasing0 := traced agent) fuel chunk previous (st, log)
      = (Ret (r, None), (st', log')) ->
    exists earlier data version owner cell slot v' o',
      log' = log ++ earlier ++ delete_turn chunk data version owner cell (v', o', None)
      /\ index_byte data (chunkToEntryNumber chunk / 8) = Ret cell
      /\ slice data (entryNumberToOffset (chunkToEntryNumber chunk))
           (wrap32 (entryNumberToOffset (chunkToEntryNumber chunk) + EntrySize)) = Ret slot
      /\ Forall (writes_one_cell chunk) earlier
      /\ Forall (fun c => is_accepted_write c = false) earlier
      /\ r = NoRedirect.
Proof.
  unfold DeleteEntry.
  induction fuel as [|fuel IH]; intros st st' log log' r; [done|].
  rewrite for_loop_unfold.
  destruct (DeleteEntry_body chunk previous (st, log)) as [[[[r1 e1]|]|msg|] [st1 log1]] eqn:Hbody;
    try done.
  - intros [= -> -> -> ->].
    apply DeleteEntry_body_traced in Hbody
      as [(reply & e & r' & _ & Hx)
         |(data & version & owner & cell & slot & [[v' o'] werr] & Hlog & Hcell & Hslice & Hx)];
      [done|].
    destruct werr as [e|].
    + by destruct (version =? 0).
    + injection Hx as ->.
      exists [], data, version, owner, cell, slot, v', o'. by split_and!.
  - intros Hrest.
    apply DeleteEntry_body_traced in Hbody
      as [(reply & e & r' & _ & Hx)
         |(data & version & owner & cell & slot & [[v' o'] werr] & Hlog & Hcell & Hslice & Hx)];
      [done|].
    destruct werr as [e|]; [|done].
    destruct (IH _ _ _ _ _ Hrest)
      as (earlier & data2 & version2 & owner2 & cell2 & slot2 & v2 & o2
          & Hlog' & Hcell2 & Hslice2 & Hshape & Hrefused & Hr).
    exists (delete_turn chunk data version owner cell (v', o', Some e) ++ earlier),
      data2, version2, owner2, cell2, slot2, v2, o2.
    split_and!; try done.
    + by rewrite Hlog', Hlog, <- !app_assoc.
    + unfold delete_turn. by repeat constructor.
    + unfold delete_turn. by repeat constructor.
Qed.

Lemma cleared_bits (cell index : Z) :
  0 <= index ->
  Z.testbit (cleared cell index) (index mod 8) = false
  /\ (forall b, 0 <= b < 8 -> b <> index mod 8 ->
      Z.testbit (cleared cell index) b = Z.testbit cell b).
Proof.
  intros Hindex. pose proof (Z.mod_pos_bound index 8 ltac:(lia)) as Hk.
  unfold cleared. rewrite Z.shiftl_1_l. split.
  - rewrite Z.land_spec, Z.lxor_spec, Z.pow2_bits_true, testbit_255 by lia.
    apply andb_false_r.
  - intros b Hb Hne.
    rewrite Z.land_spec, Z.lxor_spec, Z.pow2_bits_false, testbit_255 by lia.
    apply andb_true_r.
Qed.

Lemma entry_cell_in_bitset (chunk : ChunkNum) :
  layout_fits ->
  0 <= chunkToEntryNumber chunk
  /\ 0 <= chunkToEntryNumber chunk / 8 < BitsetSize
  /\ wrap32 (chunkToEntryNumber chunk / 8) = chunkToEntryNumber chunk / 8
  /\ entryNumberToOffset (chunkToEntryNumber chunk)
     = BitsetSize + chunkToEntryNumber chunk * EntrySize.
Proof.
  intros (HE & HS & Hbits & Hsize).
  assert (Hpow : 0 < 2 ^ EntriesPerBlock) by (apply Z.pow_pos_nonneg; lia).
  assert (Hidx : 0 <= chunkToEntryNumber chunk < 2 ^ EntriesPerBlock).
  { rewrite chunkToEntryNumber_mod by done. by apply Z.mod_pos_bound. }
  set (index := chunkToEntryNumber chunk) in *.
  assert (Hcell : 0 <= index / 8 < BitsetSize).
  { split; [apply Z.div_pos; lia|]. apply Z.div_lt_upper_bound; lia. }
  assert (Hmul : 0 <= index * EntrySize <= 2 ^ EntriesPerBlock * EntrySize).
  { split; [apply Z.mul_nonneg_nonneg; lia|]. apply Z.mul_le_mono_nonneg_r; lia. }
  assert (Hle : 2 ^ EntriesPerBlock <= 2 ^ EntriesPerBlock * EntrySize).
  { rewrite <- (Z.mul_1_r (2 ^ EntriesPerBlock)) at 1. apply Z.mul_le_mono_nonneg_l; lia. }
  split_and!; try lia.
  - unfold wrap32. apply Z.mod_small. lia.
  - unfold entryNumberToOffset, wrap32.
    rewrite (Z.mod_small index) by lia.
    rewrite (Z.mod_small (index * EntrySize)) by lia.
    rewrite Z.mod_small by lia. lia.
Qed.

(** C6. A run of [DeleteEntry] that ends in success has logged, last, the
    read of the block and one accepted write, the only accepted write of the
    run: one byte at offset [index / 8], inside the bitset, whose value is
    the cell read with bit [index mod 8] cleared and its other bits kept.
    Every write of the run has that shape. Put into the block read, that
    write changes no byte other than the cell, and none of the entry's slot. *)
Theorem DeleteEntry_writes_one_bitset_cell (fuel : nat) (chunk : ChunkNum)
    (previous : MetadataEntry) (st st' : L) (r : ServerName) (log : list Call) :
  layout_fits ->
  DeleteEntry (Leasing0 := traced agent) fuel chunk previous (st, [])
    = (Ret (r, None), (st', log)) ->
  let metachunk := chunkToBlockID chunk in
  let index := chunkToEntryNumber chunk in
  let offset := entryNumberToOffset index in
  exists earlier data version owner cell v' o',
    let accepted := CallWrite metachunk version (index / 8) [cleared cell index] (v', o', None) in
    let block' := write_range data (index / 8) [cleared cell index] in
    log = earlier ++ [CallRead metachunk (data, version, owner, None); accepted]
    /\ filter (fun c => is_accepted_write c = true) log = [accepted]
    /\ Forall (writes_one_cell chunk) log
    /\ 0 <= index / 8 < BitsetSize
    /\ data !! Z.to_nat (index / 8) = Some cell
    /\ Z.testbit (cleared cell index) (index mod 8) = false
    /\ (forall b, 0 <= b < 8 -> b <> index mod 8 ->
        Z.testbit (cleared cell index) b = Z.testbit cell b)
    /\ length block' = length data
    /\ block' !! Z.to_nat (index / 8) = Some (cleared cell index)
    /\ (forall j : nat, j <> Z.to_nat (index / 8) -> block' !! j = data !! j)
    /\ slice block' offset (wrap32 (offset + EntrySize))
       = slice data offset (wrap32 (offset + EntrySize)).
Proof.
  intros Hlayout Hrun. simpl.
  destruct (entry_cell_in_bitset chunk Hlayout) as (Hindex & Hcellpos & Hwrap & Hoffset).
  destruct (DeleteEntry_traced_success _ _ _ _ _ _ _ _ Hrun)
    as (earlier & data & version & owner & cell & slot & v' & o'
        & Hlog & Hcell & Hslice & Hshape & Hrefused & _).
  simpl in Hlog. unfold delete_turn in Hlog. rewrite Hwrap in Hlog.
  unfold index_byte in Hcell.
  destruct (data !! Z.to_nat (chunkToEntryNumber chunk / 8)) as [cell0|] eqn:Hlookup;
    [|done].
  injection Hcell as ->.
  pose proof (lookup_lt_Some _ _ _ Hlookup) as Hlt.
  destruct (cleared_bits cell (chunkToEntryNumber chunk) Hindex) as [Hzero Hkept].
  exists earlier, data, version, owner, cell, v', o'.
  unfold write_range. simpl list_inserts.
  split_and!; try done; try lia.
  - rewrite Hlog, filter_app.
    assert (Hnone : filter (fun c => is_accepted_write c = true) earlier = []).
    { clear -Hrefused. induction Hrefused as [|c cs Hc _ IH]; [done|].
      rewrite filter_cons_False by (by rewrite Hc). done. }
    by rewrite Hnone.
  - rewrite Hlog. apply Forall_app. split; [done|].
    repeat constructor. by rewrite Hwrap.
  - by rewrite length_insert.
  - by apply list_lookup_insert_eq.
  - intros j Hj. by apply list_lookup_insert_ne.
  - unfold slice. rewrite length_insert, drop_insert_lt; [done|].
    rewrite Hoffset.
    assert (0 <= chunkToEntryNumber chunk * EntrySize).
    { destruct Hlayout as (_ & HS & _). apply Z.mul_nonneg_nonneg; lia. }
    lia.
Qed.

End DeleteProofs.

Lemma small_layout_fits : layout_fits (H := small).
Proof. unfold layout_fits. simpl. lia. Qed.

Lemma DeleteEntry_writes_one_bitset_cell_witness :
  let log :=
    [CallRead 1 (block_v1, 4, "", None);
     CallWrite 1 4 0 [0] (0, "", Some "version mismatch");
     CallRead 1 (block_v1, 5, "", None);
     CallWrite 1 5 0 [0] (6, "", None)] in
  let metachunk := chunkToBlockID (H := small) 8 in
  let index := chunkToEntryNumber (H := small) 8 in
  let offset := entryNumberToOffset (H := small) index in
  exists earlier data version owner cell v' o',
    let accepted := CallWrite metachunk version (index / 8) [cleared cell index] (v', o', None) in
    let block' := write_range data (index / 8) [cleared cell index] in
    log = earlier ++ [CallRead metachunk (data, version, owner, None); accepted]
    /\ filter (fun c => is_accepted_write c = true) log = [accepted]
    /\ Forall (writes_one_cell (H := small) 8) log
    /\ 0 <= index / 8 < BitsetSize (Imports := small)
    /\ data !! Z.to_nat (index / 8) = Some cell
    /\ Z.testbit (cleared cell index) (index mod 8) = false
    /\ (forall b, 0 <= b < 8 -> b <> index mod 8 ->
        Z.testbit (cleared cell index) b = Z.testbit cell b)
    /\ length block' = length data
    /\ block' !! Z.to_nat (index / 8) = Some (cleared cell index)
    /\ (forall j : nat, j <> Z.to_nat (index / 8) -> block' !! j = data !! j)
    /\ slice block' offset (wrap32 (offset + EntrySize (Imports := small)))
       = slice data offset (wrap32 (offset + EntrySize (Imports := small))).
Proof.
  apply (DeleteEntry_writes_one_bitset_cell (H := small) scripted 2 8 entry_v1
           [ReadReply (block_v1, 4, "", None); WriteReply (0, "", Some "version mismatch");
            ReadReply (block_v1, 5, "", None); WriteReply (6, "", None)]
           [] "").
  - apply small_layout_fits.
  - reflexivity.
Defined.

(** * Further properties of the code *)

(** ** The bitset: setting and clearing a bit *)

Lemma byte_high_bits (x : byte) (n : Z) : is_byte x -> 8 <= n -> Z.testbit x n = false.
Proof.
  intros Hx Hn. unfold is_byte in Hx.
  destruct (Z.eq_dec x 0) as [->|Hne]; [apply Z.bits_0|].
  apply Z.bits_above_log2; [lia|].
  assert (Z.log2 x < 8) by (apply Z.log2_lt_pow2; lia). lia.
Qed.

Lemma byte_of_high_bits (x : Z) :
  (forall n, 8 <= n -> Z.testbit x n = false) -> 0 <= x -> is_byte x.
Proof.
  intros Hhigh Hx.
  assert (Hmod : x mod 2 ^ 8 = x).
  { apply Z.bits_inj'. intros n Hn.
    destruct (Z_lt_le_dec n 8).
    - by apply Z.mod_pow2_bits_low.
    - rewrite Z.mod_pow2_bits_high by lia. symmetry. by apply Hhigh. }
  unfold is_byte. rewrite <- Hmod. apply Z.mod_pos_bound. lia.
Qed.

Lemma set_bits (cell k : Z) :
  0 <= k ->
  Z.testbit (Z.lor cell (Z.shiftl 1 k)) k = true
  /\ (forall b, 0 <= b -> b <> k ->
      Z.testbit (Z.lor cell (Z.shiftl 1 k)) b = Z.testbit cell b).
Proof.
  intros Hk. rewrite Z.shiftl_1_l. split.
  - rewrite Z.lor_spec, Z.pow2_bits_true by done. apply orb_true_r.
  - intros b Hb Hne. rewrite Z.lor_spec, Z.pow2_bits_false by lia. apply orb_false_r.
Qed.

(** X1. On a bitset of bytes that has a cell for the index,
    [updateBitsetInData] returns the offset of that cell and one byte; with
    that byte put at that offset, the bit of the index reads as the value
    asked for and every other bit of the bitset reads as before. *)
Theorem updateBitsetInData_sets_the_bit_alone (bitset : list byte) (index : Z) (value : bool) :
  Forall is_byte bitset ->
  0 <= index ->
  index / 8 < len bitset ->
  index / 8 < 2 ^ 32 ->
  exists cell' : byte,
    updateBitsetInData bitset index value = Ret (index / 8, [cell'])
    /\ is_byte cell'
    /\ getBitsetInData (<[Z.to_nat (index / 8) := cell']> bitset) index = Ret value
    /\ (forall j, 0 <= j -> j <> index ->
        getBitsetInData (<[Z.to_nat (index / 8) := cell']> bitset) j
        = getBitsetInData bitset j).
Proof.
  intros Hbytes Hindex Hlen Hsmall.
  assert (Hdiv : 0 <= index / 8) by (apply Z.div_pos; lia).
  pose proof (Z.mod_pos_bound index 8 ltac:(lia)) as Hmod.
  assert (Hlt : (Z.to_nat (index / 8) < length bitset)%nat) by (unfold len in Hlen; lia).
  destruct (lookup_lt_is_Some_2 bitset _ Hlt) as [cell Hcell].
  assert (Hcellbyte : is_byte cell).
  { by eapply (proj1 (Forall_lookup _ _) Hbytes). }
  set (mask := Z.shiftl 1 (index mod 8)).
  set (cell' := if value then Z.lor cell mask else Z.land cell (Z.lxor mask 255)).
  assert (Hbit : Z.testbit cell' (index mod 8) = value
                 /\ forall b, 0 <= b < 8 -> b <> index mod 8 ->
                      Z.testbit cell' b = Z.testbit cell b).
  { unfold cell', mask. destruct value.
    - destruct (set_bits cell (index mod 8) ltac:(lia)) as [Hset Hkept].
      split; [done|]. intros b Hb Hne. apply Hkept; lia.
    - apply (cleared_bits cell index Hindex). }
  destruct Hbit as [Hbit Hkept].
  assert (Hmask : is_byte mask).
  { unfold mask, is_byte. rewrite Z.shiftl_1_l. split; [apply Z.pow_nonneg; lia|].
    change 256 with (2 ^ 8). apply Z.pow_lt_mono_r; lia. }
  assert (Hcell'byte : is_byte cell').
  { unfold is_byte in Hcellbyte, Hmask. apply byte_of_high_bits.
    - intros n Hn. unfold cell'. destruct value.
      + by rewrite Z.lor_spec, !byte_high_bits.
      + by rewrite Z.land_spec, byte_high_bits.
    - unfold cell'. destruct value; [apply Z.lor_nonneg | apply Z.land_nonneg]; lia. }
  exists cell'. split_and!; try done.
  - unfold updateBitsetInData, index_byte. rewrite Hcell. simpl.
    unfold wrap32. by rewrite Z.mod_small by lia.
  - rewrite getBitsetInData_testbit by done.
    by rewrite list_lookup_insert_eq, Hbit.
  - intros j Hj Hne. rewrite !getBitsetInData_testbit by done.
    assert (0 <= j / 8) by (apply Z.div_pos; lia).
    pose proof (Z.mod_pos_bound j 8 ltac:(lia)).
    destruct (Z.eq_dec (j / 8) (index / 8)) as [Heq|Hneq].
    + rewrite Heq, list_lookup_insert_eq, Hcell by done. f_equal.
      apply Hkept; [lia|]. intros Hm.
      pose proof (Z.div_mod j 8 ltac:(lia)). pose proof (Z.div_mod index 8 ltac:(lia)). lia.
    + rewrite list_lookup_insert_ne by lia. done.
Qed.

Lemma updateBitsetInData_sets_the_bit_alone_witness :
  exists cell' : byte,
    updateBitsetInData [255; 5] 9 true = Ret (9 / 8, [cell'])
    /\ is_byte cell'
    /\ getBitsetInData (<[Z.to_nat (9 / 8) := cell']> [255; 5]) 9 = Ret true
    /\ (forall j, 0 <= j -> j <> 9 ->
        getBitsetInData (<[Z.to_nat (9 / 8) := cell']> [255; 5]) j
        = getBitsetInData [255; 5] j).
Proof.
  apply (updateBitsetInData_sets_the_bit_alone [255; 5] 9 true).
  - repeat constructor; unfold is_byte; lia.
  - lia.
  - reflexivity.
  - reflexivity.
Defined.

(** ** The bitset: the scan *)

(** X2. On a byte, [findFirstZero] panics exactly when the byte is 0xFF; on
    any other byte it returns the position, below 8, of its lowest zero
    bit. *)
Theorem findFirstZero_panics_only_on_full_cell (x : byte) :
  is_byte x ->
  (x = 255 -> findFirstZero x = Panic "had no zeroes!")
  /\ (x <> 255 ->
      exists k, findFirstZero x = Ret k
                /\ 0 <= k < 8
                /\ Z.testbit x k = false
                /\ (forall j, 0 <= j < k -> Z.testbit x j = true)).
Proof.
  intros Hx. split.
  - by intros ->.
  - intros Hne. by apply findFirstZero_least.
Qed.

Lemma findFirstZero_panics_only_on_full_cell_witness :
  findFirstZero 255 = Panic "had no zeroes!"
  /\ exists k, findFirstZero 23 = Ret k
               /\ 0 <= k < 8
               /\ Z.testbit 23 k = false
               /\ (forall j, 0 <= j < k -> Z.testbit 23 j = true).
Proof.
  split.
  - apply (findFirstZero_panics_only_on_full_cell 255); [unfold is_byte; lia | reflexivity].
  - apply (findFirstZero_panics_only_on_full_cell 23); [unfold is_byte; lia | lia].
Defined.

(** X3. On a bitset of bytes [findAvailableCell] never panics. When it
    reports a cell, the index is inside the bitset and its bit is clear;
    when it reports none, the index is 0 and every cell is 0xFF. *)
Theorem findAvailableCell_never_panics (bitset : list byte) :
  Forall is_byte bitset ->
  exists (i : Z) (found : bool),
    findAvailableCell bitset = Ret (i, found)
    /\ (found = true ->
        0 <= i < 8 * len bitset /\ getBitsetInData bitset i = Ret false)
    /\ (found = false -> i = 0 /\ Forall (fun cell => cell = 255) bitset).
Proof.
  intros Hbytes.
  destruct (decide (Forall (fun cell => cell = 255) bitset)) as [Hfull|Hfree].
  - exists 0, false. split_and!; [by apply findAvailableCell_from_full|done|done].
  - apply not_Forall_Exists in Hfree; [|apply _].
    apply Exists_exists in Hfree as (cell0 & Hin & Hne). simpl in Hne.
    destruct (findAvailableCell_from_found bitset 0 Hbytes)
      as (q & k & cell & Hrun & Hk & Hq & Hzero & Hones & Hfull).
    { by exists cell0. }
    pose proof (lookup_lt_Some _ _ _ Hq) as Hlt.
    exists ((0 + Z.of_nat q) * 8 + k), true. split_and!; [done| |done].
    intros _. split; [unfold len; lia|].
    rewrite getBitsetInData_testbit by lia.
    replace (((0 + Z.of_nat q) * 8 + k) / 8) with (Z.of_nat q)
      by (apply Z.div_unique with k; lia).
    replace (((0 + Z.of_nat q) * 8 + k) mod 8) with k
      by (apply Z.mod_unique with (Z.of_nat q); lia).
    by rewrite Nat2Z.id, Hq, Hzero.
Qed.

Lemma findAvailableCell_never_panics_witness :
  exists (i : Z) (found : bool),
    findAvailableCell [255; 127; 0] = Ret (i, found)
    /\ (found = true ->
        0 <= i < 8 * len [255; 127; 0] /\ getBitsetInData [255; 127; 0] i = Ret false)
    /\ (found = false -> i = 0 /\ Forall (fun cell => cell = 255) [255; 127; 0]).
Proof.
  apply (findAvailableCell_never_panics [255; 127; 0]).
  repeat constructor; unfold is_byte; lia.
Defined.

(** ** Chunk numbers: the other direction, and large block ids *)

Section MoreChunkNumberProofs.
Context `{Imports}.

Lemma lor_above_low_bits (m i : Z) :
  0 <= EntriesPerBlock -> 0 <= i < 2 ^ EntriesPerBlock ->
  Z.lor (m * 2 ^ EntriesPerBlock) i = m * 2 ^ EntriesPerBlock + i.
Proof.
  intros HE Hi.
  assert (Hpow : 0 < 2 ^ EntriesPerBlock) by (apply Z.pow_pos_nonneg; lia).
  set (c := Z.lor (m * 2 ^ EntriesPerBlock) i).
  assert (Hdiv : c / 2 ^ EntriesPerBlock = m).
  { unfold c. rewrite <- !Z.shiftr_div_pow2, Z.shiftr_lor by done.
    rewrite <- Z.shiftl_mul_pow2, Z.shiftr_shiftl_l by done.
    rewrite Z.sub_diag, Z.shiftl_0_r, Z.shiftr_div_pow2 by done.
    rewrite Z.div_small by done. apply Z.lor_0_r. }
  assert (Hmod : c mod 2 ^ EntriesPerBlock = i).
  { unfold c. rewrite <- !Z.land_ones, Z.land_lor_distr_l, !Z.land_ones by done.
    rewrite Z.mod_mul by lia. rewrite Z.mod_small by done. apply Z.lor_0_l. }
  rewrite (Z.div_mod c (2 ^ EntriesPerBlock)) by lia. rewrite Hdiv, Hmod. lia.
Qed.

(** X4. Decomposing a chunk number and composing the parts again gives the
    chunk number back, for every 64-bit chunk number outside block 0; for a
    chunk number of block 0 the composition panics. *)
Theorem chunk_decompose_compose (c : ChunkNum) :
  0 <= EntriesPerBlock ->
  0 <= c < 2 ^ 64 ->
  (2 ^ EntriesPerBlock <= c ->
   entryAndBlockToChunkNum (chunkToBlockID c) (chunkToEntryNumber c) = Ret c)
  /\ (c < 2 ^ EntriesPerBlock ->
      entryAndBlockToChunkNum (chunkToBlockID c) (chunkToEntryNumber c)
      = Panic "broken invariant for chunk location").
Proof.
  intros HE Hc.
  assert (Hpow : 0 < 2 ^ EntriesPerBlock) by (apply Z.pow_pos_nonneg; lia).
  pose proof (Z.mod_pos_bound c (2 ^ EntriesPerBlock) Hpow) as Hmod.
  assert (Hdm : c = 2 ^ EntriesPerBlock * (c / 2 ^ EntriesPerBlock) + c mod 2 ^ EntriesPerBlock)
    by (apply Z.div_mod; lia).
  unfold entryAndBlockToChunkNum.
  rewrite chunkToBlockID_div, chunkToEntryNumber_mod, Z.shiftl_1_l by done.
  split.
  - intros Hbig.
    assert (0 < c / 2 ^ EntriesPerBlock) by (apply Z.div_str_pos; lia).
    destruct (Z.eqb_spec (c / 2 ^ EntriesPerBlock) 0); [lia|].
    destruct (Z.leb_spec (2 ^ EntriesPerBlock) (c mod 2 ^ EntriesPerBlock)); [lia|].
    simpl. f_equal. rewrite Z.shiftl_mul_pow2 by done.
    unfold wrap64. rewrite Z.mod_small by nia.
    rewrite lor_above_low_bits by done. lia.
  - intros Hsmall. rewrite Z.div_small by lia. done.
Qed.

(** X5. A block id too large for the bits above the entry index is cut
    down without notice: for any block id other than 0 and any index below
    [2^E], the composition succeeds, the entry index of the result is the
    index, and its block id is the block id modulo [2^(64-E)]. *)
Theorem chunk_compose_truncates_block (m i : Z) :
  EntriesPerBlock <= 64 ->
  0 < m ->
  0 <= i < 2 ^ EntriesPerBlock ->
  exists c : ChunkNum,
    entryAndBlockToChunkNum m i = Ret c
    /\ c = (m mod 2 ^ (64 - EntriesPerBlock)) * 2 ^ EntriesPerBlock + i
    /\ chunkToEntryNumber c = i
    /\ chunkToBlockID c = m mod 2 ^ (64 - EntriesPerBlock).
Proof.
  intros HE64 Hm Hi.
  pose proof (entries_exponent_nonneg i Hi) as HE.
  assert (Hpow : 0 < 2 ^ EntriesPerBlock) by (apply Z.pow_pos_nonneg; lia).
  assert (Hpow' : 0 < 2 ^ (64 - EntriesPerBlock)) by (apply Z.pow_pos_nonneg; lia).
  assert (Hwrap : wrap64 (Z.shiftl m EntriesPerBlock)
                  = (m mod 2 ^ (64 - EntriesPerBlock)) * 2 ^ EntriesPerBlock).
  { unfold wrap64. rewrite Z.shiftl_mul_pow2 by done.
    replace (2 ^ 64) with (2 ^ (64 - EntriesPerBlock) * 2 ^ EntriesPerBlock).
    - apply Z.mul_mod_distr_r; lia.
    - rewrite <- Z.pow_add_r by lia. f_equal. lia. }
  exists ((m mod 2 ^ (64 - EntriesPerBlock)) * 2 ^ EntriesPerBlock + i).
  split_and!; try done.
  - unfold entryAndBlockToChunkNum. rewrite Z.shiftl_1_l, Hwrap.
    destruct (Z.eqb_spec m 0); [lia|].
    destruct (Z.leb_spec (2 ^ EntriesPerBlock) i); [lia|].
    simpl. f_equal. by apply lor_above_low_bits.
  - rewrite chunkToEntryNumber_mod by done.
    rewrite Z.add_comm, Z.mod_add by lia. by apply Z.mod_small.
  - rewrite chunkToBlockID_div by done.
    rewrite Z.add_comm, Z.div_add by lia. rewrite Z.div_small by done. lia.
Qed.

(** X6. With a layout that fits, the slot of every entry index lies behind
    the bitset and inside the block, its end does not wrap, and the slots
    of two different indices do not overlap. *)
Theorem entry_slots_do_not_overlap (i j : Z) :
  layout_fits ->
  0 <= i < j -> j < 2 ^ EntriesPerBlock ->
  entryNumberToOffset i = BitsetSize + i * EntrySize
  /\ BitsetSize <= entryNumberToOffset i
  /\ wrap32 (entryNumberToOffset i + EntrySize) = entryNumberToOffset i + EntrySize
  /\ entryNumberToOffset i + EntrySize <= entryNumberToOffset j
  /\ entryNumberToOffset j + EntrySize <= BitsetSize + 2 ^ EntriesPerBlock * EntrySize.
Proof.
  intros (HE & HS & Hbits & Hsize) Hij Hj.
  assert (Hoff : forall k, 0 <= k < 2 ^ EntriesPerBlock ->
                   entryNumberToOffset k = BitsetSize + k * EntrySize
                   /\ k * EntrySize + EntrySize <= 2 ^ EntriesPerBlock * EntrySize
                   /\ 0 <= k * EntrySize).
  { intros k Hk.
    assert (0 <= k * EntrySize) by (apply Z.mul_nonneg_nonneg; lia).
    assert ((k + 1) * EntrySize <= 2 ^ EntriesPerBlock * EntrySize)
      by (apply Z.mul_le_mono_nonneg_r; lia).
    assert (0 <= BitsetSize) by lia.
    split_and!; try lia.
    unfold entryNumberToOffset, wrap32.
    rewrite (Z.mod_small k) by nia.
    rewrite (Z.mod_small (k * EntrySize)) by lia.
    rewrite Z.mod_small by lia. lia. }
  destruct (Hoff i ltac:(lia)) as (Hi & Hiend & Hi0).
  destruct (Hoff j ltac:(lia)) as (Hj' & Hjend & Hj0).
  assert ((i + 1) * EntrySize <= j * EntrySize) by (apply Z.mul_le_mono_nonneg_r; lia).
  rewrite Hi, Hj'. split_and!; try lia.
  unfold wrap32. apply Z.mod_small. lia.
Qed.

End MoreChunkNumberProofs.

Lemma chunk_decompose_compose_witness :
  entryAndBlockToChunkNum (H := small)
    (chunkToBlockID (H := small) 46) (chunkToEntryNumber (H := small) 46) = Ret 46
  /\ entryAndBlockToChunkNum (H := small)
       (chunkToBlockID (H := small) 5) (chunkToEntryNumber (H := small) 5)
     = Panic "broken invariant for chunk location".
Proof.
  destruct (chunk_decompose_compose (H := small) 46) as [Hbig _]; [simpl; lia..|].
  destruct (chunk_decompose_compose (H := small) 5) as [_ Hsmall]; [simpl; lia..|].
  split; [apply Hbig | apply Hsmall]; simpl; lia.
Defined.

Lemma chunk_compose_truncates_block_witness :
  exists c : ChunkNum,
    entryAndBlockToChunkNum (H := small) (2 ^ 61) 6 = Ret c
    /\ c = ((2 ^ 61) mod 2 ^ (64 - 3)) * 2 ^ 3 + 6
    /\ chunkToEntryNumber (H := small) c = 6
    /\ chunkToBlockID (H := small) c = (2 ^ 61) mod 2 ^ (64 - 3).
Proof.
  apply (chunk_compose_truncates_block (H := small) (2 ^ 61) 6); simpl; lia.
Defined.

Lemma entry_slots_do_not_overlap_witness :
  entryNumberToOffset (H := small) 2 = 1 + 2 * 8
  /\ 1 <= entryNumberToOffset (H := small) 2
  /\ wrap32 (entryNumberToOffset (H := small) 2 + 8) = entryNumberToOffset (H := small) 2 + 8
  /\ entryNumberToOffset (H := small) 2 + 8 <= entryNumberToOffset (H := small) 5
  /\ entryNumberToOffset (H := small) 5 + 8 <= 1 + 2 ^ 3 * 8.
Proof.
  apply (entry_slots_do_not_overlap (H := small) 2 5);
    [apply small_layout_fits | lia | simpl; lia].
Defined.

(** ** Entry slots: when serialization fails *)

Section MoreEntryProofs.
Context `{Imports}.

Lemma len_pad_loop (n : nat) (buf : list byte) :
  len (pad_loop n buf) = len buf + Z.of_nat n.
Proof.
  rewrite pad_loop_replicate. unfold len. rewrite length_app, length_replicate. lia.
Qed.

(** X7. [serializeEntry] passes an error of the encoder on, with no bytes;
    it fails with "entry missized" exactly when the encoding is longer than
    [EntrySize]; otherwise it returns the encoding followed by the zeros
    that bring it to [EntrySize] bytes. *)
Theorem serializeEntry_outcomes (e : MetadataEntry) :
  match gob_Encode e with
  | (_, Some err) => serializeEntry e = ([], Some err)
  | (encoded, None) =>
      if len encoded <=? EntrySize
      then serializeEntry e
           = (encoded ++ replicate (Z.to_nat (EntrySize - len encoded)) 0, None)
           /\ len (encoded ++ replicate (Z.to_nat (EntrySize - len encoded)) 0) = EntrySize
      else serializeEntry e = ([], Some (errors_New "entry missized"))
  end.
Proof.
  unfold serializeEntry.
  destruct (gob_Encode e) as [encoded [err|]]; [done|].
  pose proof (len_pad_loop (Z.to_nat (EntrySize - len encoded)) encoded) as Hlen.
  assert (0 <= len encoded) by (unfold len; lia).
  destruct (Z.leb_spec (len encoded) EntrySize) as [Hle|Hgt].
  - rewrite <- pad_loop_replicate.
    destruct (Z.eqb_spec (len (pad_loop (Z.to_nat (EntrySize - len encoded)) encoded))
                EntrySize); [|lia].
    split; [done|lia].
  - destruct (Z.eqb_spec (len (pad_loop (Z.to_nat (EntrySize - len encoded)) encoded))
                EntrySize); [lia|done].
Qed.

End MoreEntryProofs.

(** ** The operations: what they return and what they leave alone *)

Section MoreCacheProofs.
Context `{Imports} {L : Type} (agent : Leasing L).

(** X8. When the block the agent returns has the chunk's bit set and holds,
    in the chunk's slot, the serialization of an entry, [ReadEntry] returns
    that entry with no redirect and no error. *)
Theorem ReadEntry_returns_serialized_entry (chunk : ChunkNum) (st st' : L)
    (data slot : list byte) (version : Version) (owner : ServerName) (e : MetadataEntry) :
  gob_reads_what_it_wrote ->
  leasing_Read (chunkToBlockID chunk) st = ((data, version, owner, None), st') ->
  getBitsetInData data (chunkToEntryNumber chunk) = Ret true ->
  slice data (entryNumberToOffset (chunkToEntryNumber chunk))
    (wrap32 (entryNumberToOffset (chunkToEntryNumber chunk) + EntrySize)) = Ret slot ->
  serializeEntry e = (slot, None) ->
  ReadEntry chunk st = (Ret (e, NoRedirect, None), st').
Proof.
  intros Hgob Hread Hbit Hslice Hser.
  destruct (serializeEntry_inv e slot Hser) as (encoded & Henc & -> & _).
  unfold ReadEntry, chunkToBlockAndOffset. run.
  rewrite Hread. simpl. rewrite Hbit. simpl. rewrite Hslice. simpl.
  unfold deserializeEntry. by rewrite (Hgob e encoded _ Henc).
Qed.

(** X9. When the agent's Read fails (the block is held elsewhere),
    [ReadEntry], [UpdateEntry] and [DeleteEntry] each return the owner and
    the error the agent gave, after that one Read and no other call. *)
Theorem failed_read_is_passed_on (fuel : nat) (chunk : ChunkNum)
    (previous entry : MetadataEntry) (st st' : L) (log : list Call)
    (data : list byte) (version : Version) (owner : ServerName) (e : error) :
  leasing_Read (chunkToBlockID chunk) st = ((data, version, owner, Some e), st') ->
  let read1 := CallRead (chunkToBlockID chunk) (data, version, owner, Some e) in
  ReadEntry (Leasing0 := traced agent) chunk (st, log)
  = (Ret (zeroEntry, owner, Some e), (st', log ++ [read1]))
  /\ UpdateEntry (Leasing0 := traced agent) (S fuel) chunk previous entry (st, log)
     = (Ret (owner, Some e), (st', log ++ [read1]))
  /\ DeleteEntry (Leasing0 := traced agent) (S fuel) chunk previous (st, log)
     = (Ret (owner, Some e), (st', log ++ [read1])).
Proof.
  intros Hread. simpl. split_and!.
  - unfold ReadEntry, chunkToBlockAndOffset. run. by rewrite Hread.
  - unfold UpdateEntry. rewrite for_loop_unfold.
    unfold UpdateEntry_body, chunkToBlockAndOffset. run. by rewrite Hread.
  - unfold DeleteEntry. rewrite for_loop_unfold.
    unfold DeleteEntry_body, chunkToBlockAndOffset. run. by rewrite Hread.
Qed.

(** X10. [UpdateEntry] and [DeleteEntry] on a chunk whose bit is clear
    return their does-not-exist error with no redirect, after one Read and
    no Write. *)
Theorem update_and_delete_of_deallocated_entry (fuel : nat) (chunk : ChunkNum)
    (previous entry : MetadataEntry) (st st' : L) (log : list Call)
    (data : list byte) (version : Version) (owner : ServerName) :
  leasing_Read (chunkToBlockID chunk) st = ((data, version, owner, None), st') ->
  getBitsetInData data (chunkToEntryNumber chunk) = Ret false ->
  let read1 := CallRead (chunkToBlockID chunk) (data, version, owner, None) in
  UpdateEntry (Leasing0 := traced agent) (S fuel) chunk previous entry (st, log)
  = (Ret (NoRedirect, Some (errors_New "entry doesn't exist to be able to be updated")),
     (st', log ++ [read1]))
  /\ DeleteEntry (Leasing0 := traced agent) (S fuel) chunk previous (st, log)
     = (Ret (NoRedirect, Some (errors_New "entry doesn't exist to be able to be deleted")),
        (st', log ++ [read1])).
Proof.
  intros Hread Hbit. simpl. split.
  - unfold UpdateEntry. rewrite for_loop_unfold.
    unfold UpdateEntry_body, chunkToBlockAndOffset. run.
    rewrite Hread. simpl. by rewrite Hbit.
  - unfold DeleteEntry. rewrite for_loop_unfold.
    unfold DeleteEntry_body, chunkToBlockAndOffset. run.
    rewrite Hread. simpl. by rewrite Hbit.
Qed.

(** X11. [UpdateEntry] and [DeleteEntry] on an allocated chunk whose slot
    decodes to an entry that [Equals] does not accept as [previous] return
    the does-not-match error with no redirect, after one Read and no
    Write. *)
Theorem update_and_delete_with_stale_previous (fuel : nat) (chunk : ChunkNum)
    (previous entry stored : MetadataEntry) (st st' : L) (log : list Call)
    (data slot : list byte) (version : Version) (owner : ServerName) :
  leasing_Read (chunkToBlockID chunk) st = ((data, version, owner, None), st') ->
  getBitsetInData data (chunkToEntryNumber chunk) = Ret true ->
  slice data (entryNumberToOffset (chunkToEntryNumber chunk))
    (wrap32 (entryNumberToOffset (chunkToEntryNumber chunk) + EntrySize)) = Ret slot ->
  deserializeEntry slot = (stored, None) ->
  Equals stored previous = false ->
  let read1 := CallRead (chunkToBlockID chunk) (data, version, owner, None) in
  UpdateEntry (Leasing0 := traced agent) (S fuel) chunk previous entry (st, log)
  = (Ret (NoRedirect, Some (errors_New "entry does not match previous expected entry")),
     (st', log ++ [read1]))
  /\ DeleteEntry (Leasing0 := traced agent) (S fuel) chunk previous (st, log)
     = (Ret (NoRedirect, Some (errors_New "entry does not match previous expected entry")),
        (st', log ++ [read1])).
Proof.
  intros Hread Hbit Hslice Hdec Hne. simpl. split.
  - unfold UpdateEntry. rewrite for_loop_unfold.
    unfold UpdateEntry_body, chunkToBlockAndOffset. run.
    rewrite Hread. simpl. rewrite Hbit. simpl. rewrite Hslice. simpl.
    by rewrite Hdec, Hne.
  - unfold DeleteEntry. rewrite for_loop_unfold.
    unfold DeleteEntry_body, chunkToBlockAndOffset. run.
    rewrite Hread. simpl. rewrite Hbit. simpl. rewrite Hslice. simpl.
    by rewrite Hdec, Hne.
Qed.

End MoreCacheProofs.

(** ** The operations never panic on whole blocks *)

Section NoPanicProofs.
Context `{Imports} {L : Type} `{!Leasing L}.

Lemma for_loop_no_panic {A} (body : M L (option A)) :
  (forall st, ~ panics (body st)) ->
  forall fuel st, ~ panics (for_loop fuel body st).
Proof.
  intros Hbody. induction fuel as [|fuel IH]; intros st.
  - by intros [msg Hmsg].
  - rewrite for_loop_unfold. specialize (Hbody st).
    destruct (body st) as [[[a|]|msg|] st1].
    + by intros [msg Hmsg].
    + apply IH.
    + exfalso. apply Hbody. by exists msg.
    + by intros [msg Hmsg].
Qed.

(** With a layout that fits and a whole block, the reads of the bit and of
    the slot of any chunk are within bounds. *)
Lemma whole_block_in_bounds (chunk : ChunkNum) (data : list byte) :
  layout_fits ->
  len data = BitsetSize + 2 ^ EntriesPerBlock * EntrySize ->
  (exists cell, index_byte data (chunkToEntryNumber chunk / 8) = Ret cell)
  /\ (exists slot,
        slice data (entryNumberToOffset (chunkToEntryNumber chunk))
          (wrap32 (entryNumberToOffset (chunkToEntryNumber chunk) + EntrySize)) = Ret slot).
Proof.
  intros Hlayout Hlen.
  destruct (entry_cell_in_bitset chunk Hlayout) as (Hindex & Hcell & _ & Hoffset).
  destruct Hlayout as (HE & HS & Hbits & Hsize).
  assert (Hpow : 0 < 2 ^ EntriesPerBlock) by (apply Z.pow_pos_nonneg; lia).
  assert (Hidx : chunkToEntryNumber chunk < 2 ^ EntriesPerBlock).
  { rewrite chunkToEntryNumber_mod by done. by apply Z.mod_pos_bound. }
  set (index := chunkToEntryNumber chunk) in *.
  assert (Hmul : 0 <= index * EntrySize
                 /\ (index + 1) * EntrySize <= 2 ^ EntriesPerBlock * EntrySize).
  { split; [apply Z.mul_nonneg_nonneg; lia|]. apply Z.mul_le_mono_nonneg_r; lia. }
  split.
  - unfold index_byte.
    destruct (data !! Z.to_nat (index / 8)) as [cell|] eqn:Hlookup; [by exists cell|].
    apply lookup_ge_None in Hlookup. unfold len in Hlen. lia.
  - unfold slice. rewrite Hoffset.
    assert (Hwrap : wrap32 (BitsetSize + index * EntrySize + EntrySize)
                    = BitsetSize + index * EntrySize + EntrySize).
    { unfold wrap32. apply Z.mod_small. lia. }
    rewrite Hwrap. unfold len in Hlen.
    destruct (Z.leb_spec (BitsetSize + index * EntrySize)
                (BitsetSize + index * EntrySize + EntrySize)); [|lia].
    destruct (Z.leb_spec (BitsetSize + index * EntrySize + EntrySize)
                (Z.of_nat (length data))); [|lia].
    simpl. by eexists.
Qed.

(** X12. Against an agent that hands out whole blocks of a layout that
    fits, [ReadEntry], [UpdateEntry] and [DeleteEntry] never panic: no index
    or slice is out of range, and the check on the length of the serialized
    entry in [UpdateEntry] never fails. *)
Theorem operations_never_panic (fuel : nat) (chunk : ChunkNum)
    (previous entry : MetadataEntry) (st : L) :
  layout_fits ->
  returns_whole_blocks ->
  ~ panics (ReadEntry chunk st)
  /\ ~ panics (UpdateEntry fuel chunk previous entry st)
  /\ ~ panics (DeleteEntry fuel chunk previous st).
Proof.
  intros Hlayout Hwhole.
  assert (Hbounds : forall st0 data version owner st1,
             leasing_Read (chunkToBlockID chunk) st0 = ((data, version, owner, None), st1) ->
             (exists cell, index_byte data (chunkToEntryNumber chunk / 8) = Ret cell)
             /\ (exists slot,
                   slice data (entryNumberToOffset (chunkToEntryNumber chunk))
                     (wrap32 (entryNumberToOffset (chunkToEntryNumber chunk) + EntrySize))
                   = Ret slot)).
  { intros st0 data version owner st1 Hread.
    apply whole_block_in_bounds; [done|]. by eapply Hwhole. }
  split_and!.
  - unfold ReadEntry, chunkToBlockAndOffset. run.
    destruct (leasing_Read (chunkToBlockID chunk) st) as [[[[data version] owner] [e|]] st1]
      eqn:Hread; simpl; [by intros [msg Hmsg]|].
    destruct (Hbounds _ _ _ _ _ Hread) as [[cell Hcell] [slot Hslice]].
    unfold getBitsetInData. rewrite Hcell. simpl.
    destruct (negb (negb _)); simpl; [by intros [msg Hmsg]|].
    rewrite Hslice. simpl.
    destruct (deserializeEntry slot) as [stored [e|]]; by intros [msg Hmsg].
  - apply for_loop_no_panic. clear st. intros st.
    unfold UpdateEntry_body, chunkToBlockAndOffset. run.
    destruct (leasing_Read (chunkToBlockID chunk) st) as [[[[data version] owner] [e|]] st1]
      eqn:Hread; simpl; [by intros [msg Hmsg]|].
    destruct (Hbounds _ _ _ _ _ Hread) as [[cell Hcell] [slot Hslice]].
    unfold getBitsetInData. rewrite Hcell. simpl.
    destruct (negb (negb _)); simpl; [by intros [msg Hmsg]|].
    rewrite Hslice. simpl.
    destruct (deserializeEntry slot) as [stored [e|]]; simpl; [by intros [msg Hmsg]|].
    destruct (negb (Equals stored previous)); simpl; [by intros [msg Hmsg]|].
    destruct (serializeEntry stored) as [updated [e|]] eqn:Hser; simpl;
      [by intros [msg Hmsg]|].
    destruct (serializeEntry_inv stored updated Hser) as (_ & _ & _ & Hlen).
    rewrite Hlen, Z.eqb_refl. simpl.
    destruct (leasing_Write _ _ _ _ _) as [[[v' o'] [e|]] st2]; simpl;
      [destruct (version =? 0)|]; by intros [msg Hmsg].
  - apply for_loop_no_panic. clear st. intros st.
    unfold DeleteEntry_body, chunkToBlockAndOffset. run.
    destruct (leasing_Read (chunkToBlockID chunk) st) as [[[[data version] owner] [e|]] st1]
      eqn:Hread; simpl; [by intros [msg Hmsg]|].
    destruct (Hbounds _ _ _ _ _ Hread) as [[cell Hcell] [slot Hslice]].
    unfold getBitsetInData, updateBitsetInData. rewrite Hcell. simpl.
    destruct (negb (negb _)); simpl; [by intros [msg Hmsg]|].
    rewrite Hslice. simpl.
    destruct (deserializeEntry slot) as [stored [e|]]; simpl; [by intros [msg Hmsg]|].
    destruct (negb (Equals stored previous)); simpl; [by intros [msg Hmsg]|].
    destruct (leasing_Write _ _ _ _ _) as [[[v' o'] [e|]] st2]; simpl;
      [destruct (version =? 0)|]; by intros [msg Hmsg].
Qed.

End NoPanicProofs.

(** ** The search for a free entry *)

Lemma findAvailableCell_on_bytes (bitset : list byte) :
  Forall is_byte bitset ->
  exists (i : Z) (found : bool),
    findAvailableCell bitset = Ret (i, found)
    /\ (found = true ->
        0 <= i < 8 * len bitset
        /\ getBitsetInData bitset i = Ret false
        /\ (forall j, 0 <= j < i -> getBitsetInData bitset j = Ret true))
    /\ (found = false -> i = 0 /\ Forall (fun cell => cell = 255) bitset).
Proof.
  intros Hbytes.
  destruct (decide (Forall (fun cell => cell = 255) bitset)) as [Hfull|Hfree].
  { exists 0, false. split_and!; [by apply findAvailableCell_from_full|done|done]. }
  apply not_Forall_Exists in Hfree; [|apply _].
  apply Exists_exists in Hfree as (cell0 & Hin & Hne). simpl in Hne.
  destruct (findAvailableCell_from_found bitset 0 Hbytes)
    as (q & k & cell & Hrun & Hk & Hq & Hzero & Hones & Hfull).
  { by exists cell0. }
  pose proof (lookup_lt_Some _ _ _ Hq) as Hlt.
  set (i := (0 + Z.of_nat q) * 8 + k) in *.
  assert (Hdiv : i / 8 = Z.of_nat q) by (unfold i; symmetry; apply Z.div_unique with k; lia).
  assert (Hmod : i mod 8 = k) by (unfold i; symmetry; apply Z.mod_unique with (Z.of_nat q); lia).
  exists i, true. split_and!; [done| |done].
  intros _. split_and!.
  - lia.
  - unfold len, i. lia.
  - rewrite getBitsetInData_testbit by lia. by rewrite Hdiv, Nat2Z.id, Hq, Hmod, Hzero.
  - intros j Hj. rewrite getBitsetInData_testbit by lia.
    assert (Hjq : 0 <= j / 8 <= Z.of_nat q).
    { split; [apply Z.div_pos; lia|]. rewrite <- Hdiv. apply Z.div_le_mono; lia. }
    pose proof (Z.mod_pos_bound j 8 ltac:(lia)) as Hjm.
    destruct (Z.eq_dec (j / 8) (Z.of_nat q)) as [Heq|Hneq].
    + rewrite Heq, Nat2Z.id, Hq. f_equal. apply Hones.
      pose proof (Z.div_mod j 8 ltac:(lia)). unfold i in Hj. lia.
    + rewrite (Hfull (Z.to_nat (j / 8))) by lia. f_equal. by apply testbit_255.
Qed.

Lemma getBitsetInData_take (data : list byte) (n j : Z) :
  0 <= j -> j / 8 < n ->
  getBitsetInData (take (Z.to_nat n) data) j = getBitsetInData data j.
Proof.
  intros Hj Hn. assert (0 <= j / 8) by (apply Z.div_pos; lia).
  unfold getBitsetInData, index_byte. by rewrite lookup_take_lt by lia.
Qed.

Section SearchProofs.
Context `{Imports} {L : Type} `{!Leasing L}.

(** X13. On a block of bytes that has its bitset, [findFreeChunkIn] returns
    without error. When it finds an index, the index is inside the bitset,
    its bit is clear in the block read and every bit below it is set; when
    it finds none, the index is 0 and every bit of the bitset is set. *)
Theorem findFreeChunkIn_finds_lowest_clear_bit (m : MetadataID) (st st' : L)
    (data : list byte) (version : Version) (owner : ServerName) :
  leasing_Read m st = ((data, version, owner, None), st') ->
  Forall is_byte data ->
  0 <= BitsetSize <= len data ->
  exists (i : Z) (found : bool),
    findFreeChunkIn m st = (Ret (i, found, None), st')
    /\ (found = true ->
        0 <= i < 8 * BitsetSize
        /\ getBitsetInData data i = Ret false
        /\ (forall j, 0 <= j < i -> getBitsetInData data j = Ret true))
    /\ (found = false ->
        i = 0 /\ (forall j, 0 <= j < 8 * BitsetSize -> getBitsetInData data j = Ret true)).
Proof.
  intros Hread Hbytes HB.
  assert (Hslice : slice data 0 BitsetSize = Ret (take (Z.to_nat BitsetSize) data)).
  { unfold slice, len in *.
    destruct (Z.leb_spec 0 BitsetSize); [|lia].
    destruct (Z.leb_spec BitsetSize (Z.of_nat (length data))); [|lia].
    simpl. by rewrite Z.sub_0_r. }
  assert (Hlen : len (take (Z.to_nat BitsetSize) data) = BitsetSize).
  { unfold len in *. rewrite length_take. lia. }
  destruct (findAvailableCell_on_bytes (take (Z.to_nat BitsetSize) data))
    as (i & found & Hrun & Hfound & Hnone).
  { by apply Forall_take. }
  exists i, found. split_and!.
  - unfold findFreeChunkIn. run. rewrite Hread. simpl. rewrite Hslice. simpl.
    rewrite Hrun. simpl. destruct found; [done|].
    by destruct (Hnone eq_refl) as [-> _].
  - intros ->. destruct (Hfound eq_refl) as (Hi & Hclear & Hbelow).
    rewrite Hlen in Hi.
    assert (Hdiv : forall j, 0 <= j <= i -> j / 8 < BitsetSize).
    { intros j Hj. apply Z.div_lt_upper_bound; lia. }
    split_and!; try lia.
    + rewrite <- Hclear. symmetry. apply getBitsetInData_take; [lia|]. apply Hdiv. lia.
    + intros j Hj. rewrite <- (Hbelow j Hj). symmetry.
      apply getBitsetInData_take; [lia|]. apply Hdiv. lia.
  - intros ->. destruct (Hnone eq_refl) as [-> Hfull]. split; [done|].
    intros j Hj.
    assert (Hdiv : 0 <= j / 8 < BitsetSize).
    { split; [apply Z.div_pos; lia|]. apply Z.div_lt_upper_bound; lia. }
    rewrite <- (getBitsetInData_take data BitsetSize j) by lia.
    rewrite getBitsetInData_testbit by lia.
    destruct (take (Z.to_nat BitsetSize) data !! Z.to_nat (j / 8)) as [cell|] eqn:Hcell.
    + rewrite (proj1 (Forall_lookup _ _) Hfull _ _ Hcell).
      f_equal. apply testbit_255. apply Z.mod_pos_bound. lia.
    + apply lookup_ge_None in Hcell. unfold len in Hlen. lia.
Qed.

End SearchProofs.

(** ** What the read-only paths never do *)

Section QuietProofs.
Context `{Imports} {L : Type} (agent : Leasing L).

Lemma only_ret {A} (P : Call -> Prop) (a : A) : appends_only (L := L) P (mret a).
Proof.
  intros st st' log log' r [= <- <- <-]. exists []. by rewrite app_nil_r.
Qed.

Lemma only_lift {A} (P : Call -> Prop) (o : outcome A) : appends_only (L := L) P (lift o).
Proof.
  intros st st' log log' r [= <- <- <-]. exists []. by rewrite app_nil_r.
Qed.

Lemma only_bind {A B} (P : Call -> Prop)
    (f : M (L * list Call) A) (k : A -> M (L * list Call) B) :
  appends_only P f -> (forall a, appends_only P (k a)) ->
  appends_only P (f ≫= k).
Proof.
  intros Hf Hk st st' log log' r. unfold mbind, M_bind.
  destruct (f (st, log)) as [o [st1 log1]] eqn:Hrun.
  destruct (Hf _ _ _ _ _ Hrun) as (new1 & -> & Hquiet1).
  destruct o as [a|msg|].
  - intros Hrest. destruct (Hk a _ _ _ _ _ Hrest) as (new2 & -> & Hquiet2).
    exists (new1 ++ new2). split; [by rewrite app_assoc|]. by apply Forall_app.
  - intros [= <- <- <-]. by exists new1.
  - intros [= <- <- <-]. by exists new1.
Qed.

Lemma only_Read (P : Call -> Prop) (m : MetadataID) :
  (forall reply, P (CallRead m reply)) ->
  appends_only P (call (leasing_Read (Leasing := traced agent) m)).
Proof.
  intros HP st st' log log' r. unfold call. simpl.
  destruct (leasing_Read m st) as [reply st1].
  intros [= <- <- <-]. eexists. split; [done|]. by repeat constructor.
Qed.

Lemma only_Write (P : Call -> Prop) (m : MetadataID) (version : Version) (offset : Z)
    (data : list byte) :
  (forall reply, P (CallWrite m version offset data reply)) ->
  appends_only P (call (leasing_Write (Leasing := traced agent) m version offset data)).
Proof.
  intros HP st st' log log' r. unfold call. simpl.
  destruct (leasing_Write m version offset data st) as [reply st1].
  intros [= <- <- <-]. eexists. split; [done|]. by repeat constructor.
Qed.

Lemma only_for_loop {A} (P : Call -> Prop) (body : M (L * list Call) (option A))
    (fuel : nat) :
  appends_only P body -> appends_only P (for_loop fuel body).
Proof.
  intros Hbody. induction fuel as [|fuel IH]; [apply only_lift|].
  simpl. apply only_bind; [done|]. intros [a|]; [apply only_ret | done].
Qed.

Lemma quiet_ret {A} (a : A) : appends_no_write (L := L) (mret a).
Proof. apply only_ret. Qed.

Lemma quiet_lift {A} (o : outcome A) : appends_no_write (L := L) (lift o).
Proof. apply only_lift. Qed.

Lemma quiet_bind {A B} (f : M (L * list Call) A) (k : A -> M (L * list Call) B) :
  appends_no_write f -> (forall a, appends_no_write (k a)) ->
  appends_no_write (f ≫= k).
Proof. apply only_bind. Qed.

Lemma quiet_Read (m : MetadataID) :
  appends_no_write (call (leasing_Read (Leasing := traced agent) m)).
Proof. by apply only_Read. Qed.

Lemma quiet_ListLeases :
  appends_no_write (call (leasing_ListLeases (Leasing := traced agent))).
Proof.
  intros st st' log log' r. unfold call. simpl.
  destruct (leasing_ListLeases st) as [reply st1].
  intros [= <- <- <-]. eexists. split; [done|]. by repeat constructor.
Qed.

Lemma quiet_GetAnyUnleased :
  appends_no_write (call (leasing_GetAnyUnleased (Leasing := traced agent))).
Proof.
  intros st st' log log' r. unfold call. simpl.
  destruct (leasing_GetAnyUnleased st) as [reply st1].
  intros [= <- <- <-]. eexists. split; [done|]. by repeat constructor.
Qed.

Lemma quiet_for_loop {A} (body : M (L * list Call) (option A)) (fuel : nat) :
  appends_no_write body -> appends_no_write (for_loop fuel body).
Proof. apply only_for_loop. Qed.

Lemma quiet_findFreeChunkIn (m : MetadataID) :
  appends_no_write (findFreeChunkIn (Leasing0 := traced agent) m).
Proof.
  unfold findFreeChunkIn. apply quiet_bind; [apply quiet_Read|].
  intros [[[data version] owner] [e|]]; [apply quiet_ret|].
  apply quiet_bind; [apply quiet_lift|]. intros bitset.
  apply quiet_bind; [apply quiet_lift|]. intros [cellIndex [|]]; apply quiet_ret.
Qed.

Lemma quiet_findAnyLeasedFreeChunk_range (leases : list MetadataID) :
  appends_no_write (findAnyLeasedFreeChunk_range (Leasing0 := traced agent) leases).
Proof.
  induction leases as [|m rest IH]; simpl; [apply quiet_ret|].
  apply quiet_bind; [apply quiet_findFreeChunkIn|].
  intros [[index [|]] [e|]]; try apply quiet_ret. done.
Qed.

Lemma quiet_findAnyFreeChunk (search : nat) :
  appends_no_write (findAnyFreeChunk (Leasing0 := traced agent) search).
Proof.
  unfold findAnyFreeChunk. apply quiet_bind.
  { unfold findAnyLeasedFreeChunk. apply quiet_bind; [apply quiet_ListLeases|].
    intros [leases [e|]]; [apply quiet_ret | apply quiet_findAnyLeasedFreeChunk_range]. }
  intros [[[metadataID index] [|]] [e|]]; try apply quiet_ret.
  apply quiet_for_loop. unfold findAnyFreeChunk_body.
  apply quiet_bind; [apply quiet_GetAnyUnleased|].
  intros [m [e|]]; [apply quiet_ret|].
  apply quiet_bind; [apply quiet_findFreeChunkIn|].
  intros [[index' [|]] [e|]]; apply quiet_ret.
Qed.

(** X14. [ReadEntry], [getBitset] and the whole search for a free entry
    ([findFreeChunkIn], [findAnyLeasedFreeChunk], [findAnyFreeChunk]) never
    call the agent's Write, however they end. *)
Theorem reads_and_search_never_write (chunk : ChunkNum) (m : MetadataID) (index : Z)
    (search : nat) :
  appends_no_write (ReadEntry (Leasing0 := traced agent) chunk)
  /\ appends_no_write (getBitset (Leasing0 := traced agent) m index)
  /\ appends_no_write (findFreeChunkIn (Leasing0 := traced agent) m)
  /\ appends_no_write (findAnyLeasedFreeChunk (Leasing0 := traced agent))
  /\ appends_no_write (findAnyFreeChunk (Leasing0 := traced agent) search).
Proof.
  split_and!.
  - unfold ReadEntry, chunkToBlockAndOffset. apply quiet_bind; [apply quiet_Read|].
    intros [[[data version] owner] [e|]]; [apply quiet_ret|].
    apply quiet_bind; [apply quiet_lift|]. intros [|]; simpl; [|apply quiet_ret].
    apply quiet_bind; [apply quiet_lift|]. intros slot.
    destruct (deserializeEntry slot) as [entry [e|]]; apply quiet_ret.
  - unfold getBitset. apply quiet_bind; [apply quiet_Read|].
    intros [[[data version] owner] [e|]]; [apply quiet_ret|].
    apply quiet_bind; [apply quiet_lift|]. intros bitset.
    apply quiet_bind; [apply quiet_lift|]. intros found. apply quiet_ret.
  - apply quiet_findFreeChunkIn.
  - unfold findAnyLeasedFreeChunk. apply quiet_bind; [apply quiet_ListLeases|].
    intros [leases [e|]]; [apply quiet_ret | apply quiet_findAnyLeasedFreeChunk_range].
  - apply quiet_findAnyFreeChunk.
Qed.

End QuietProofs.

(** ** NewEntry and the calls it makes *)

Section NewEntryTraceProofs.
Context `{Imports} {L : Type} (agent : Leasing L).

(** The turn of [updateBitset] that sets a bit, by what it logged: a Read
    alone when the Read failed or the bit was already set, else the Read and
    one Write of the cell with the bit set. *)
Lemma updateBitset_set_traced (m : MetadataID) (index : Z) (st st' : L)
    (log log' : list Call) (r : bool * option error) :
  updateBitset (Leasing0 := traced agent) m index true (st, log) = (Ret r, (st', log')) ->
  (exists reply, log' = log ++ [CallRead m reply] /\ r.1 = false)
  \/ (exists data version owner bitset cell wreply,
        log' = log ++ [CallRead m (data, version, owner, None);
                       CallWrite m version (wrap32 (index / 8))
                         [Z.lor cell (Z.shiftl 1 (index mod 8))] wreply]
        /\ slice data 0 BitsetSize = Ret bitset
        /\ index_byte bitset (index / 8) = Ret cell
        /\ getBitsetInData bitset index = Ret false
        /\ r = match wreply with
               | (_, _, Some e) => (false, Some e)
               | (_, _, None) => (true, None)
               end).
Proof.
  unfold updateBitset. run.
  destruct (leasing_Read m st) as [[[[data version] owner] [e|]] st1]; simpl.
  { intros [= <- <- <-]. left. by eexists. }
  destruct (slice data 0 BitsetSize) as [bitset| |] eqn:Hslice; simpl; try done.
  unfold getBitsetInData, updateBitsetInData.
  destruct (index_byte bitset (index / 8)) as [cell| |] eqn:Hcell; simpl; try done.
  destruct (negb (Z.land cell _ =? 0)) eqn:Hbit; simpl.
  { intros [= <- <- <-]. left. by eexists. }
  destruct (leasing_Write _ _ _ _ _) as [[[v' o'] werr] st2] eqn:Hwrite. simpl.
  intros Hr. right. exists data, version, owner, bitset, cell, (v', o', werr).
  destruct werr as [e|]; simpl in Hr; injection Hr as <- <- <-;
    (split_and!; [by rewrite <- app_assoc|done|done| |done]);
    rewrite Hcell; simpl; by rewrite Hbit.
Qed.

Lemma NewEntry_body_traced (search : nat) (st st' : L) (log log' : list Call)
    (x : option (ChunkNum * option error)) :
  NewEntry_body (Leasing0 := traced agent) search (st, log) = (Ret x, (st', log')) ->
  match x with
  | None => exists before, log' = log ++ before
                           /\ Forall (fun c => is_a_write c = false) before
  | Some r => new_entry_run log log' r
  end.
Proof.
  rewrite NewEntry_body_steps.
  destruct (findAnyFreeChunk search (st, log)) as [o [st1 log1]] eqn:Hfind.
  destruct (quiet_findAnyFreeChunk agent search _ _ _ _ _ Hfind) as (found & -> & Hquiet).
  destruct o as [[[m index] [e|]]|msg|]; try done.
  { intros [= <- <- <-]. exists found. split; [done|]. left.
    exists e, []. by rewrite app_nil_r. }
  destruct (updateBitset m index true (st1, log ++ found)) as [o2 [st2 log2]] eqn:Hupd.
  destruct o2 as [r2|msg|]; try done.
  apply updateBitset_set_traced in Hupd
    as [(reply & -> & Hr)
       |(data & version & owner & bitset & cell & [[v' o'] werr] & -> & Hslice & Hcell
         & Hbit & ->)].
  - destruct r2 as [[|] [e|]]; simpl in Hr; try done.
    + intros [= <- <- <-]. exists (found ++ [CallRead m reply]).
      split; [apply Forall_app; split; [done|by repeat constructor]|].
      left. exists e, []. by rewrite app_nil_r, <- app_assoc.
    + intros [= <- <- <-]. exists (found ++ [CallRead m reply]).
      split; [by rewrite app_assoc|]. apply Forall_app. split; [done|by repeat constructor].
  - destruct werr as [e|].
    + intros [= <- <- <-]. exists found. split; [done|]. left.
      eexists e, _. split_and!; [done|by rewrite <- app_assoc|]. by repeat constructor.
    + unfold entryAndBlockToChunkNum. rewrite Z.shiftl_1_l.
      destruct (Z.eqb_spec m 0) as [|Hm]; simpl; [done|].
      destruct (Z.leb_spec (2 ^ EntriesPerBlock) index) as [|Hindex]; simpl; [done|].
      intros [= <- <- <-]. exists found. split; [done|]. right.
      exists m, index, data, version, owner, bitset, cell, v', o'.
      split_and!; try done. by rewrite <- app_assoc.
Qed.

Lemma NewEntry_traced (search fuel : nat) :
  forall (st st' : L) (log log' : list Call) (r : ChunkNum * option error),
    NewEntry (Leasing0 := traced agent) fuel search (st, log) = (Ret r, (st', log')) ->
    new_entry_run log log' r.
Proof.
  unfold NewEntry. induction fuel as [|fuel IH]; intros st st' log log' r; [done|].
  rewrite for_loop_unfold.
  destruct (NewEntry_body search (st, log)) as [[[r1|]|msg|] [st1 log1]] eqn:Hbody;
    try done.
  - intros [= <- <- <-]. by apply NewEntry_body_traced in Hbody.
  - intros Hrest. apply NewEntry_body_traced in Hbody as (before1 & -> & Hquiet1).
    destruct (IH _ _ _ _ _ Hrest) as (before2 & Hquiet2 & Hcases).
    exists (before1 ++ before2). split; [by apply Forall_app|].
    destruct Hcases as [(e & tail & -> & -> & Htail)
                       |(m & index & data & version & owner & bitset & cell & v' & o'
                         & -> & -> & Hrest')].
    + left. exists e, tail. by rewrite <- !app_assoc.
    + right. exists m, index, data, version, owner, bitset, cell, v', o'.
      split_and!; try apply Hrest'; try done. by rewrite <- !app_assoc.
Qed.

(** X15. A run of [NewEntry] that returns a chunk number without error has
    made exactly one Write, its last call, and the agent accepted it: one
    byte at offset [index / 8] of block [m], the cell just read with bit
    [index mod 8] set. That bit was clear in the block just read, [m] is not
    0, [index] is below [2^E], and the chunk number is
    [(m << E) | index]. *)
Theorem NewEntry_success_sets_one_bit (fuel search : nat) (st st' : L)
    (log : list Call) (c : ChunkNum) :
  NewEntry (Leasing0 := traced agent) fuel search (st, []) = (Ret (c, None), (st', log)) ->
  exists before m index data version owner bitset cell v' o',
    let accepted := CallWrite m version (wrap32 (index / 8))
                      [Z.lor cell (Z.shiftl 1 (index mod 8))] (v', o', None) in
    log = before ++ [CallRead m (data, version, owner, None); accepted]
    /\ filter (fun call => is_a_write call = true) log = [accepted]
    /\ c = Z.lor (wrap64 (Z.shiftl m EntriesPerBlock)) index
    /\ m <> 0
    /\ index < 2 ^ EntriesPerBlock
    /\ slice data 0 BitsetSize = Ret bitset
    /\ index_byte bitset (index / 8) = Ret cell
    /\ getBitsetInData bitset index = Ret false.
Proof.
  intros Hrun.
  destruct (NewEntry_traced _ _ _ _ _ _ _ Hrun) as (before & Hquiet & Hcases).
  destruct Hcases as [(e & tail & Hr & _)
                     |(m & index & data & version & owner & bitset & cell & v' & o'
                       & Hr & Hlog & Hm & Hindex & Hslice & Hcell & Hbit)]; [done|].
  injection Hr as ->. simpl in Hlog.
  exists before, m, index, data, version, owner, bitset, cell, v', o'.
  simpl. split_and!; try done.
  rewrite Hlog, filter_app.
  assert (Hnone : filter (fun call => is_a_write call = true) before = []).
  { clear -Hquiet. induction Hquiet as [|call calls Hcall _ IH]; [done|].
    rewrite filter_cons_False by (by rewrite Hcall). done. }
  by rewrite Hnone.
Qed.

(** X16. A run of [NewEntry] that returns an error returns chunk number 0
    with it, and no Write of the run was accepted: nothing was allocated. *)
Theorem NewEntry_error_allocates_nothing (fuel search : nat) (st st' : L)
    (log : list Call) (c : ChunkNum) (e : error) :
  NewEntry (Leasing0 := traced agent) fuel search (st, []) = (Ret (c, Some e), (st', log)) ->
  c = 0 /\ Forall (fun call => is_accepted_write call = false) log.
Proof.
  intros Hrun.
  destruct (NewEntry_traced _ _ _ _ _ _ _ Hrun) as (before & Hquiet & Hcases).
  destruct Hcases as [(e' & tail & Hr & Hlog & Htail)
                     |(m & index & data & version & owner & bitset & cell & v' & o'
                       & Hr & _)]; [|done].
  injection Hr as -> <-. split; [done|]. simpl in Hlog. rewrite Hlog.
  apply Forall_app. split; [|done].
  eapply Forall_impl; [exact Hquiet|]. by intros [].
Qed.

End NewEntryTraceProofs.

(** ** UpdateEntry and DeleteEntry: where they write, and what a failure
    leaves behind *)

Section WriteShapeProofs.
Context `{Imports} {L : Type} (agent : Leasing L).

Lemma only_lift_bind {A B} (P : Call -> Prop) (o : outcome A)
    (k : A -> M (L * list Call) B) :
  (forall a, o = Ret a -> appends_only P (k a)) ->
  appends_only P (lift o ≫= k).
Proof.
  intros Hk. destruct o as [a|msg|].
  - intros st st' log log' r Hrun. unfold mbind, M_bind, lift in Hrun.
    by apply (Hk a eq_refl st st' log log' r).
  - intros st st' log log' r [= <- <- <-]. exists []. by rewrite app_nil_r.
  - intros st st' log log' r [= <- <- <-]. exists []. by rewrite app_nil_r.
Qed.

Lemma updateBitsetInData_shape (bitset : list byte) (index : Z) (value : bool)
    (offset : Z) (newData : list byte) :
  updateBitsetInData bitset index value = Ret (offset, newData) ->
  offset = wrap32 (index / 8) /\ length newData = 1%nat.
Proof.
  unfold updateBitsetInData.
  destruct (index_byte bitset (index / 8)) as [cell|msg|]; simpl; try done.
  by intros [= <- <-].
Qed.

(** X17. However they end, [UpdateEntry] writes nothing but [EntrySize]
    bytes at the offset of the chunk's slot, and [DeleteEntry] nothing but
    one byte at the chunk's cell of the bitset, both in the chunk's block:
    neither writes to any other block, and neither writes anywhere else in
    the chunk's block. *)
Theorem update_and_delete_write_only_their_range (fuel : nat) (chunk : ChunkNum)
    (previous entry : MetadataEntry) :
  appends_only (writes_one_slot chunk)
    (UpdateEntry (Leasing0 := traced agent) fuel chunk previous entry)
  /\ appends_only (writes_one_cell chunk)
       (DeleteEntry (Leasing0 := traced agent) fuel chunk previous).
Proof.
  split.
  - apply only_for_loop. unfold UpdateEntry_body, chunkToBlockAndOffset.
    apply only_bind; [by apply only_Read|].
    intros [[[data version] owner] [e|]]; [apply only_ret|].
    apply only_bind; [apply only_lift|]. intros [|]; simpl; [|apply only_ret].
    apply only_bind; [apply only_lift|]. intros slot.
    destruct (deserializeEntry slot) as [stored [e|]]; [apply only_ret|].
    destruct (negb (Equals stored previous)); [apply only_ret|].
    destruct (serializeEntry stored) as [updated [e|]]; [apply only_ret|].
    destruct (Z.eqb_spec (len updated) EntrySize) as [Hlen|]; simpl; [|apply only_lift].
    apply only_bind; [by apply only_Write|].
    intros [[v' o'] [e|]]; [destruct (version =? 0)|]; apply only_ret.
  - apply only_for_loop. unfold DeleteEntry_body, chunkToBlockAndOffset.
    apply only_bind; [by apply only_Read|].
    intros [[[data version] owner] [e|]]; [apply only_ret|].
    apply only_bind; [apply only_lift|]. intros [|]; simpl; [|apply only_ret].
    apply only_bind; [apply only_lift|]. intros slot.
    destruct (deserializeEntry slot) as [stored [e|]]; [apply only_ret|].
    destruct (negb (Equals stored previous)); [apply only_ret|].
    apply only_lift_bind. intros [updateOffset newData] Hupd.
    apply updateBitsetInData_shape in Hupd as [-> Hone].
    apply only_bind; [by apply only_Write|].
    intros [[v' o'] [e|]]; [destruct (version =? 0)|]; apply only_ret.
Qed.

(** One turn of [UpdateEntry], by what it logged: unless the turn returned
    success, no write it made was accepted. *)
Lemma UpdateEntry_body_accepts (chunk : ChunkNum) (previous entry : MetadataEntry)
    (st st' : L) (log log' : list Call) (x : option (ServerName * option error)) :
  UpdateEntry_body (Leasing0 := traced agent) chunk previous entry (st, log)
    = (Ret x, (st', log')) ->
  exists new, log' = log ++ new
              /\ (x = Some (NoRedirect, None)
                  \/ Forall (fun c => is_accepted_write c = false) new).
Proof.
  unfold UpdateEntry_body, chunkToBlockAndOffset. run.
  destruct (leasing_Read (chunkToBlockID chunk) st) as [[[[data version] owner] err] st1].
  destruct err as [e|]; simpl.
  { intros [= <- <- <-]. eexists. split; [done|]. right. by repeat constructor. }
  destruct (getBitsetInData data (chunkToEntryNumber chunk)) as [found| |]; simpl; try done.
  destruct found; simpl.
  2: { intros [= <- <- <-]. eexists. split; [done|]. right. by repeat constructor. }
  destruct (slice data _ _) as [slot| |]; simpl; try done.
  destruct (deserializeEntry slot) as [stored [e|]]; simpl.
  { intros [= <- <- <-]. eexists. split; [done|]. right. by repeat constructor. }
  destruct (Equals stored previous); simpl.
  2: { intros [= <- <- <-]. eexists. split; [done|]. right. by repeat constructor. }
  destruct (serializeEntry stored) as [updated [e|]]; simpl.
  { intros [= <- <- <-]. eexists. split; [done|]. right. by repeat constructor. }
  destruct (negb (len updated =? EntrySize)); simpl; [done|].
  destruct (leasing_Write _ _ _ _ _) as [[[v' o'] werr] st2]. simpl.
  destruct werr as [e|]; simpl.
  - destruct (version =? 0); intros [= <- <- <-];
      (eexists; split; [by rewrite <- app_assoc|]; right; by repeat constructor).
  - intros [= <- <- <-]. eexists. split; [by rewrite <- app_assoc|]. by left.
Qed.

Lemma DeleteEntry_body_accepts (chunk : ChunkNum) (previous : MetadataEntry)
    (st st' : L) (log log' : list Call) (x : option (ServerName * option error)) :
  DeleteEntry_body (Leasing0 := traced agent) chunk previous (st, log)
    = (Ret x, (st', log')) ->
  exists new, log' = log ++ new
              /\ (x = Some (NoRedirect, None)
                  \/ Forall (fun c => is_accepted_write c = false) new).
Proof.
  intros Hbody.
  apply DeleteEntry_body_traced in Hbody
    as [(reply & e & r' & -> & Hx)
       |(data & version & owner & cell & slot & [[v' o'] werr] & -> & _ & _ & Hx)].
  - eexists. split; [done|]. right. by repeat constructor.
  - eexists. split; [done|]. destruct werr as [e|]; [right|by left].
    unfold delete_turn. by repeat constructor.
Qed.

Lemma failed_loop_accepts_nothing (body : M (L * list Call) (option (ServerName * option error))) :
  (forall st st' log log' x,
      body (st, log) = (Ret x, (st', log')) ->
      exists new, log' = log ++ new
                  /\ (x = Some (NoRedirect, None)
                      \/ Forall (fun c => is_accepted_write c = false) new)) ->
  forall (fuel : nat) (st st' : L) (log log' : list Call) (r : ServerName) (e : error),
    for_loop fuel body (st, log) = (Ret (r, Some e), (st', log')) ->
    exists new, log' = log ++ new /\ Forall (fun c => is_accepted_write c = false) new.
Proof.
  intros Hbody. induction fuel as [|fuel IH]; intros st st' log log' r e; [done|].
  rewrite for_loop_unfold.
  destruct (body (st, log)) as [[[r1|]|msg|] [st1 log1]] eqn:Hturn; try done.
  - intros [= -> <- <-].
    destruct (Hbody _ _ _ _ _ Hturn) as (new & -> & [Hx|Hnew]); [done|]. by exists new.
  - intros Hrest.
    destruct (Hbody _ _ _ _ _ Hturn) as (new1 & -> & [Hx|Hnew1]); [done|].
    destruct (IH _ _ _ _ _ _ Hrest) as (new2 & -> & Hnew2).
    exists (new1 ++ new2). split; [by rewrite app_assoc|]. by apply Forall_app.
Qed.

(** X18. A run of [UpdateEntry] or of [DeleteEntry] that returns an error
    has had no Write accepted by the agent: a failure changes nothing. *)
Theorem failed_update_or_delete_changes_nothing (fuel : nat) (chunk : ChunkNum)
    (previous entry : MetadataEntry) (st st' : L) (log : list Call)
    (r : ServerName) (e : error) :
  (UpdateEntry (Leasing0 := traced agent) fuel chunk previous entry (st, [])
     = (Ret (r, Some e), (st', log)) ->
   Forall (fun c => is_accepted_write c = false) log)
  /\ (DeleteEntry (Leasing0 := traced agent) fuel chunk previous (st, [])
        = (Ret (r, Some e), (st', log)) ->
      Forall (fun c => is_accepted_write c = false) log).
Proof.
  split; intros Hrun.
  - destruct (failed_loop_accepts_nothing _
                (UpdateEntry_body_accepts chunk previous entry) _ _ _ _ _ _ _ Hrun)
      as (new & -> & Hnew). done.
  - destruct (failed_loop_accepts_nothing _
                (DeleteEntry_body_accepts chunk previous) _ _ _ _ _ _ _ Hrun)
      as (new & -> & Hnew). done.
Qed.

End WriteShapeProofs.

Lemma range_assign_all {A B} (f : A -> outcome B) (g : A -> B) (src : list A) :
  Forall (fun a => f a = Ret (g a)) src ->
  forall (i : nat) (dst : list B),
    (i + length src <= length dst)%nat ->
    range_assign f i src dst
    = Ret (take i dst ++ map g src ++ drop (i + length src) dst).
Proof.
  induction 1 as [|a src Ha _ IH]; intros i dst Hlen; simpl in *.
  - by rewrite Nat.add_0_r, take_drop.
  - rewrite Ha. simpl. destruct (decide (i < length dst)%nat); [|lia].
    rewrite IH by (rewrite length_insert; lia). f_equal.
    rewrite (take_S_r _ _ (g a)) by (apply list_lookup_insert_eq; lia).
    rewrite take_insert_ge by lia.
    rewrite drop_insert_lt by lia.
    rewrite <- app_assoc. simpl. by rewrite Nat.add_succ_r.
Qed.

Lemma range_assign_make {A B} (f : A -> outcome B) (g : A -> B) (src : list A) (zero : B) :
  Forall (fun a => f a = Ret (g a)) src ->
  range_assign f 0 src (replicate (length src) zero) = Ret (map g src).
Proof.
  intros Hall. rewrite (range_assign_all f g src Hall) by (rewrite length_replicate; lia).
  simpl. rewrite drop_ge by (rewrite length_replicate; lia). by rewrite app_nil_r.
Qed.

Lemma range_assign_panics {A B} (f : A -> outcome B) (msg : string) (src : list A) :
  Forall (fun a => f a = Panic msg \/ exists b, f a = Ret b) src ->
  Exists (fun a => f a = Panic msg) src ->
  forall (i : nat) (dst : list B),
    (i + length src <= length dst)%nat ->
    range_assign f i src dst = Panic msg.
Proof.
  induction 1 as [|a src Ha _ IH]; intros Hex i dst Hlen; simpl in *.
  - by apply Exists_nil in Hex.
  - destruct Ha as [Ha|[b Ha]]; rewrite Ha; simpl; [done|].
    destruct (decide (i < length dst)%nat); [|lia].
    apply Exists_cons in Hex as [Hex|Hex]; [congruence|].
    apply IH; [done|]. rewrite length_insert. lia.
Qed.

Section ListAdapterProofs.

(** X19. [StartWriteReplicated] through the client-side adapter and, in
    process, the server-side adapter reaches the chunkserver with the chunk,
    offset, data and replica addresses the caller gave, the addresses in
    their order, and returns the chunkserver's error unchanged; neither of
    the two copying loops panics. *)
Theorem StartWriteReplicated_through_both_adapters (S : Type) (server : ChunkserverLists S)
    (chunk : ChunkNum) (offset : Z) (data : list byte) (replicas : list string) (st : S) :
  proxyTwirpAsChunkserver_StartWriteReplicated (TwirpChunkserverLists0 := in_process)
    chunk offset data replicas st
  = (let '(err, st') := chunkserver_StartWriteReplicated chunk offset data replicas st in
     (Ret err, st')).
Proof.
  assert (Hcopy : forall l : list string,
             range_assign (fun v : string => Ret v) 0 l (replicate (length l) "") = Ret l).
  { intros l. rewrite (range_assign_make _ id); [by rewrite map_id|].
    by apply Forall_forall. }
  unfold proxyTwirpAsChunkserver_StartWriteReplicated. run.
  rewrite Hcopy. simpl.
  unfold proxyChunkserverAsTwirp_StartWriteReplicated. run.
  rewrite Hcopy. simpl.
  by destruct (chunkserver_StartWriteReplicated chunk offset data replicas st).
Qed.

(** X20. [ListAllChunks] through the client-side adapter and, in process,
    the server-side adapter returns the chunkserver's list, each chunk with
    its version and in the chunkserver's order, together with the
    chunkserver's error. *)
Theorem ListAllChunks_through_both_adapters (S : Type) (server : ChunkserverLists S)
    (st : S) :
  proxyTwirpAsChunkserver_ListAllChunks (TwirpChunkserverLists0 := in_process) st
  = (let '((chunks, err), st') := chunkserver_ListAllChunks st in
     (Ret (chunks, err), st')).
Proof.
  unfold proxyTwirpAsChunkserver_ListAllChunks. run.
  unfold proxyChunkserverAsTwirp_ListAllChunks. run.
  destruct (chunkserver_ListAllChunks st) as [[chunks err] st']. simpl.
  rewrite (range_assign_make _
             (fun chunk : Z * Z => Some {| cv_Chunk := chunk.1; cv_Version := chunk.2 |}))
    by (by apply Forall_forall).
  simpl.
  rewrite (range_assign_make _
             (fun v : option ChunkVersion =>
                match v with Some v => (cv_Chunk v, cv_Version v) | None => (0, 0) end)).
  - simpl. rewrite map_map. simpl.
    assert (Hid : map (fun x : Z * Z => (x.1, x.2)) chunks = chunks).
    { induction chunks as [|[c v] chunks IH]; simpl; [done | by rewrite IH]. }
    by rewrite Hid.
  - apply Forall_forall. intros v Hv.
    apply list_elem_of_In, in_map_iff in Hv as (c & <- & _). done.
Qed.

(** X21. The client-side [ListAllChunks] reads the result before it looks at
    the error. With a result whose chunks are all present it returns them
    decoded, in order, together with the error, set or not; with a nil
    result, or a nil chunk in the result, it panics, whatever the error. *)
Theorem ListAllChunks_client_uses_result_first (T : Type) (client : TwirpChunkserverLists T)
    (st st' : T) (result : option Chunkserver_ListAllChunks_Result) (err : option error) :
  twirp_ListAllChunks st = (Ret (result, err), st') ->
  (result = None ->
   proxyTwirpAsChunkserver_ListAllChunks st = (Panic "nil pointer dereference", st'))
  /\ (forall chunks : list ChunkVersion,
        result = Some {| list_Chunks := Some <$> chunks |} ->
        proxyTwirpAsChunkserver_ListAllChunks st
        = (Ret ((fun v => (cv_Chunk v, cv_Version v)) <$> chunks, err), st'))
  /\ (forall r, result = Some r -> None ∈ list_Chunks r ->
      proxyTwirpAsChunkserver_ListAllChunks st = (Panic "nil pointer dereference", st')).
Proof.
  intros Hcall. split_and!.
  - intros ->. unfold proxyTwirpAsChunkserver_ListAllChunks. run. by rewrite Hcall.
  - intros chunks ->. unfold proxyTwirpAsChunkserver_ListAllChunks. run.
    rewrite Hcall. simpl.
    rewrite (range_assign_make _
               (fun v : option ChunkVersion =>
                  match v with Some v => (cv_Chunk v, cv_Version v) | None => (0, 0) end)).
    + simpl. by rewrite <- list_fmap_compose.
    + apply Forall_forall. intros v Hv.
      apply list_elem_of_fmap in Hv as (c & -> & _). done.
  - intros r -> Hnil. unfold proxyTwirpAsChunkserver_ListAllChunks. run.
    rewrite Hcall. simpl.
    rewrite (range_assign_panics _ "nil pointer dereference"); [done| | |].
    + apply Forall_forall. intros [v|] _; [right; by eexists | by left].
    + apply Exists_exists. by exists None.
    + rewrite length_replicate. lia.
Qed.

End ListAdapterProofs.

Section TeardownProofs.

(** X22. [teardown] always ends by waiting for the serve loop. Without
    [kill] it does nothing else and returns what the serve loop reported.
    With [kill] it shuts the server down first and closes the listener only
    if the shutdown succeeded. It returns no error exactly when no step it
    took failed, and names both errors when a step and the serve loop
    failed. *)
Theorem teardown_steps_and_result (E : Type) (env : Serving E) (kill : bool) (st : E) :
  exists (result : option error) (st' : E) (log : list ServingCall),
    teardown (Serving0 := logged_serving env) kill (st, []) = (Ret result, (st', log))
    /\ (result = None <-> Forall (fun c => serving_result c = None) log)
    /\ (if kill
        then (exists e1 r2, log = [DidShutdown (Some e1); DidReceive r2])
             \/ (exists rc r2, log = [DidShutdown None; DidClose rc; DidReceive r2])
        else exists r2, log = [DidReceive r2] /\ result = r2)
    /\ (forall e1 e2,
          (DidShutdown (Some e1) ∈ log \/ DidClose (Some e1) ∈ log) ->
          DidReceive (Some e2) ∈ log ->
          result = Some (multiple_errors e1 e2)).
Proof.
  unfold teardown. run. destruct kill; simpl.
  - destruct (httpServer_Shutdown st) as [[e1|] st1]; simpl.
    + destruct (termErr_receive st1) as [[e2|] st2]; simpl;
        (eexists _, _, _; split_and!; [done| | left; by eexists _, _ |]).
      * split; [done|]. intros Hall. by apply Forall_cons in Hall as [? _].
      * intros e1' e2' Hstep Hrecv.
        repeat (apply elem_of_cons in Hrecv as [Hrecv|Hrecv]; try done).
        2: by apply elem_of_nil in Hrecv.
        injection Hrecv as ->.
        destruct Hstep as [Hstep|Hstep];
          repeat (apply elem_of_cons in Hstep as [Hstep|Hstep]; try done);
          try (by apply elem_of_nil in Hstep).
        by injection Hstep as ->.
      * split; [done|]. intros Hall. by apply Forall_cons in Hall as [? _].
      * intros e1' e2' _ Hrecv.
        repeat (apply elem_of_cons in Hrecv as [Hrecv|Hrecv]; try done).
        by apply elem_of_nil in Hrecv.
    + destruct (listener_Close st1) as [[ec|] st2]; simpl;
        destruct (termErr_receive st2) as [[e2|] st3]; simpl;
        (eexists _, _, _; split_and!; [done| | right; by eexists _, _ |]).
      * split; [done|]. intros Hall.
        apply Forall_cons in Hall as [_ Hall]. by apply Forall_cons in Hall as [? _].
      * intros e1' e2' Hstep Hrecv.
        repeat (apply elem_of_cons in Hrecv as [Hrecv|Hrecv]; try done).
        2: by apply elem_of_nil in Hrecv.
        injection Hrecv as ->.
        destruct Hstep as [Hstep|Hstep];
          repeat (apply elem_of_cons in Hstep as [Hstep|Hstep]; try done);
          try (by apply elem_of_nil in Hstep).
        by injection Hstep as ->.
      * split; [done|]. intros Hall.
        apply Forall_cons in Hall as [_ Hall]. by apply Forall_cons in Hall as [? _].
      * intros e1' e2' _ Hrecv.
        repeat (apply elem_of_cons in Hrecv as [Hrecv|Hrecv]; try done).
        by apply elem_of_nil in Hrecv.
      * split; [done|]. intros Hall.
        apply Forall_cons in Hall as [_ Hall]. apply Forall_cons in Hall as [_ Hall].
        by apply Forall_cons in Hall as [? _].
      * intros e1' e2' Hstep _.
        destruct Hstep as [Hstep|Hstep];
          repeat (apply elem_of_cons in Hstep as [Hstep|Hstep]; try done);
          by apply elem_of_nil in Hstep.
      * split; [by repeat constructor|done].
      * intros e1' e2' _ Hrecv.
        repeat (apply elem_of_cons in Hrecv as [Hrecv|Hrecv]; try done).
        by apply elem_of_nil in Hrecv.
  - destruct (termErr_receive st) as [[e2|] st1]; simpl;
      (eexists _, _, _; split_and!; [done| | by eexists |]).
    + split; [done|]. intros Hall. by apply Forall_cons in Hall as [? _].
    + intros e1' e2' Hstep _.
      destruct Hstep as [Hstep|Hstep];
        repeat (apply elem_of_cons in Hstep as [Hstep|Hstep]; try done);
        by apply elem_of_nil in Hstep.
    + split; [by repeat constructor|done].
    + intros e1' e2' _ Hrecv.
      repeat (apply elem_of_cons in Hrecv as [Hrecv|Hrecv]; try done).
      by apply elem_of_nil in Hrecv.
Qed.

End TeardownProofs.

(** ** Runs of the further properties on the small instance *)

Lemma ReadEntry_returns_serialized_entry_witness :
  ReadEntry (H := small) (Leasing0 := scripted) 8 [ReadReply (block_v1, 4, "", None)]
  = (Ret (entry_v1, "", None), []).
Proof.
  apply (ReadEntry_returns_serialized_entry (H := small) scripted 8 _ []
           block_v1 [3; 1; 7; 9; 0; 0; 0; 0] 4 "" entry_v1);
    [apply small_reads_what_it_wrote | reflexivity..].
Defined.

Lemma failed_read_is_passed_on_witness :
  DeleteEntry (H := small) (Leasing0 := traced scripted) 3 8 entry_v1
    ([ReadReply ([], 0, "B", Some "not owner")], [])
  = (Ret ("B", Some "not owner"), ([], [CallRead 1 ([], 0, "B", Some "not owner")])).
Proof.
  destruct (failed_read_is_passed_on (H := small) scripted 2 8 entry_v1 entry_v2
              [ReadReply ([], 0, "B", Some "not owner")] [] [] [] 0 "B" "not owner" eq_refl)
    as (_ & _ & Hdelete).
  exact Hdelete.
Defined.

Lemma update_and_delete_of_deallocated_entry_witness :
  UpdateEntry (H := small) (Leasing0 := traced scripted) 1 8 entry_v1 entry_v2
    ([ReadReply (small_block 0, 4, "", None)], [])
  = (Ret ("", Some "entry doesn't exist to be able to be updated"),
     ([], [CallRead 1 (small_block 0, 4, "", None)])).
Proof.
  destruct (update_and_delete_of_deallocated_entry (H := small) scripted 0 8
              entry_v1 entry_v2 [ReadReply (small_block 0, 4, "", None)] [] []
              (small_block 0) 4 "" eq_refl eq_refl) as [Hupdate _].
  exact Hupdate.
Defined.

Lemma update_and_delete_with_stale_previous_witness :
  DeleteEntry (H := small) (Leasing0 := traced scripted) 1 8 entry_v2
    ([ReadReply (block_v1, 4, "", None)], [])
  = (Ret ("", Some "entry does not match previous expected entry"),
     ([], [CallRead 1 (block_v1, 4, "", None)])).
Proof.
  destruct (update_and_delete_with_stale_previous (H := small) scripted 0 8
              entry_v2 entry_v2 entry_v1 [ReadReply (block_v1, 4, "", None)] [] []
              block_v1 [3; 1; 7; 9; 0; 0; 0; 0] 4 ""
              eq_refl eq_refl eq_refl eq_refl eq_refl) as [_ Hdelete].
  exact Hdelete.
Defined.

Lemma steady_returns_whole_blocks :
  returns_whole_blocks (H := small) (Leasing0 := steady).
Proof. intros m st st' data version owner [= <- _ _ _]. reflexivity. Qed.

Lemma operations_never_panic_witness :
  ~ panics (ReadEntry (H := small) (Leasing0 := steady) 8 tt)
  /\ ~ panics (UpdateEntry (H := small) (Leasing0 := steady) 3 8 entry_v1 entry_v2 tt)
  /\ ~ panics (DeleteEntry (H := small) (Leasing0 := steady) 3 8 entry_v1 tt).
Proof.
  apply (operations_never_panic (H := small) (Leasing0 := steady) 3 8 entry_v1 entry_v2 tt).
  - apply small_layout_fits.
  - apply steady_returns_whole_blocks.
Defined.

Lemma small_block_bytes (bits : byte) : is_byte bits -> Forall is_byte (small_block bits).
Proof.
  intros Hbits. unfold small_block. apply Forall_cons. split; [done|].
  apply Forall_replicate. unfold is_byte. lia.
Qed.

Lemma findFreeChunkIn_finds_lowest_clear_bit_witness :
  exists (i : Z) (found : bool),
    findFreeChunkIn (H := small) (Leasing0 := scripted) 1
      [ReadReply (small_block 7, 4, "", None)]
    = (Ret (i, found, None), [])
    /\ (found = true ->
        0 <= i < 8 * 1
        /\ getBitsetInData (small_block 7) i = Ret false
        /\ (forall j, 0 <= j < i -> getBitsetInData (small_block 7) j = Ret true))
    /\ (found = false ->
        i = 0 /\ (forall j, 0 <= j < 8 * 1 -> getBitsetInData (small_block 7) j = Ret true)).
Proof.
  apply (findFreeChunkIn_finds_lowest_clear_bit (H := small) (Leasing0 := scripted) 1
           [ReadReply (small_block 7, 4, "", None)] [] (small_block 7) 4 "").
  - reflexivity.
  - apply small_block_bytes. unfold is_byte. lia.
  - split; [simpl; lia | apply Z.leb_le; reflexivity].
Defined.

Lemma NewEntry_success_sets_one_bit_witness :
  exists before m index data version owner bitset cell v' o',
    let accepted := CallWrite m version (wrap32 (index / 8))
                      [Z.lor cell (Z.shiftl 1 (index mod 8))] (v', o', None) in
    [CallListLeases ([1], None);
     CallRead 1 (small_block 1, 4, "", None);
     CallRead 1 (small_block 1, 4, "", None);
     CallWrite 1 4 0 [3] (5, "", None)]
    = before ++ [CallRead m (data, version, owner, None); accepted]
    /\ filter (fun call => is_a_write call = true)
         [CallListLeases ([1], None);
          CallRead 1 (small_block 1, 4, "", None);
          CallRead 1 (small_block 1, 4, "", None);
          CallWrite 1 4 0 [3] (5, "", None)] = [accepted]
    /\ 9 = Z.lor (wrap64 (Z.shiftl m (EntriesPerBlock (Imports := small)))) index
    /\ m <> 0
    /\ index < 2 ^ EntriesPerBlock (Imports := small)
    /\ slice data 0 (BitsetSize (Imports := small)) = Ret bitset
    /\ index_byte bitset (index / 8) = Ret cell
    /\ getBitsetInData bitset index = Ret false.
Proof.
  apply (NewEntry_success_sets_one_bit (H := small) scripted 1 1
           [ListLeasesReply ([1], None);
            ReadReply (small_block 1, 4, "", None);
            ReadReply (small_block 1, 4, "", None);
            WriteReply (5, "", None)] []).
  reflexivity.
Defined.

Lemma NewEntry_error_allocates_nothing_witness :
  0 = 0
  /\ Forall (fun call => is_accepted_write call = false)
       [CallListLeases ([1], None);
        CallRead 1 (small_block 1, 4, "", None);
        CallRead 1 (small_block 1, 4, "", None);
        CallWrite 1 4 0 [3] (0, "", Some "version mismatch")].
Proof.
  apply (NewEntry_error_allocates_nothing (H := small) scripted 5 1
           [ListLeasesReply ([1], None);
            ReadReply (small_block 1, 4, "", None);
            ReadReply (small_block 1, 4, "", None);
            WriteReply (0, "", Some "version mismatch")] [] _ 0 "version mismatch").
  reflexivity.
Defined.

Lemma failed_update_or_delete_changes_nothing_witness :
  Forall (fun c => is_accepted_write c = false)
    [CallRead 1 (block_v1, 0, "", None);
     CallWrite 1 0 0 [0] (0, "B", Some "not owner")].
Proof.
  destruct (failed_update_or_delete_changes_nothing (H := small) scripted 2 8
              entry_v1 entry_v2
              [ReadReply (block_v1, 0, "", None); WriteReply (0, "B", Some "not owner")] []
              [CallRead 1 (block_v1, 0, "", None);
               CallWrite 1 0 0 [0] (0, "B", Some "not owner")]
              "B" "not owner") as [_ Hdelete].
  apply Hdelete. reflexivity.
Defined.

Lemma ListAllChunks_client_uses_result_first_witness :
  proxyTwirpAsChunkserver_ListAllChunks (TwirpChunkserverLists0 := canned_list_client)
    (None, Some "connection refused")
  = (Panic "nil pointer dereference", (None, Some "connection refused"))
  /\ proxyTwirpAsChunkserver_ListAllChunks (TwirpChunkserverLists0 := canned_list_client)
       (Some {| list_Chunks := [Some {| cv_Chunk := 7; cv_Version := 2 |};
                                Some {| cv_Chunk := 9; cv_Version := 1 |}] |},
        Some "partial")
     = (Ret ([(7, 2); (9, 1)], Some "partial"),
        (Some {| list_Chunks := [Some {| cv_Chunk := 7; cv_Version := 2 |};
                                 Some {| cv_Chunk := 9; cv_Version := 1 |}] |},
         Some "partial")).
Proof.
  split.
  - destruct (ListAllChunks_client_uses_result_first _ canned_list_client
                (None, Some "connection refused") (None, Some "connection refused")
                None (Some "connection refused") eq_refl) as (Hnil & _ & _).
    by apply Hnil.
  - destruct (ListAllChunks_client_uses_result_first _ canned_list_client
                (Some {| list_Chunks := [Some {| cv_Chunk := 7; cv_Version := 2 |};
                                         Some {| cv_Chunk := 9; cv_Version := 1 |}] |},
                 Some "partial")
                (Some {| list_Chunks := [Some {| cv_Chunk := 7; cv_Version := 2 |};
                                         Some {| cv_Chunk := 9; cv_Version := 1 |}] |},
                 Some "partial")
                _ (Some "partial") eq_refl) as (_ & Hall & _).
    apply (Hall [{| cv_Chunk := 7; cv_Version := 2 |}; {| cv_Chunk := 9; cv_Version := 1 |}]).
    reflexivity.
Defined.

Lemma reads_and_search_never_write_witness :
  exists new,
    [CallListLeases ([1], None); CallRead 1 (small_block 1, 4, "", None)] = [] ++ new
    /\ Forall (fun c => is_a_write c = false) new.
Proof.
  destruct (reads_and_search_never_write (H := small) scripted 8 1 0 1)
    as (_ & _ & _ & _ & Hsearch).
  apply (Hsearch [ListLeasesReply ([1], None); ReadReply (small_block 1, 4, "", None)] []
           [] _ (Ret (1, 1, None))).
  reflexivity.
Defined.

Lemma update_and_delete_write_only_their_range_witness :
  exists new,
    [CallRead 1 (block_v1, 4, "", None);
     CallWrite 1 4 1 [3; 1; 7; 9; 0; 0; 0; 0] (5, "", None)] = [] ++ new
    /\ Forall (writes_one_slot (H := small) 8) new.
Proof.
  destruct (update_and_delete_write_only_their_range (H := small) scripted 1 8
              entry_v1 entry_v2) as [Hupdate _].
  apply (Hupdate [ReadReply (block_v1, 4, "", None); WriteReply (5, "", None)] []
           [] _ (Ret ("", None))).
  reflexivity.
Defined.
